(** * Melingo engagement backend: session store, analyzer, decision engine

    A shallow embedding of [backend/local_app.py] and [backend/modal_app.py]
    (the two files share the three handlers and the pure functions; they
    differ in how [get_ai_decision] reaches the generation service).

    Python values are embedded as the values [json.loads] can build:
    unbounded integers, binary64 floats with their IEEE-754 arithmetic,
    strings of code points.  Exceptions are explicit: a statement that can
    raise returns a [result].  The process-wide [sessions_store] is a finite
    map that the handlers thread through.  Standard output is taken to be
    a strict UTF-8 stream, the encoding under which the diagnostic lines of
    the source can be written at all. *)

From Stdlib Require Import ZArith QArith Lqa String Ascii List Bool Lia SpecFloat.
From stdpp Require Import base option list gmap.

Set Default Proof Using "Type".

(** ** Python strings and JSON values *)

(** A Python [str] is a sequence of Unicode code points. *)
Definition char := N.
Definition pystr := list char.

(** ASCII literals of the source text. *)
Definition lit (s : string) : pystr := N_of_ascii <$> list_ascii_of_string s.

Arguments lit : simpl never.

(** The double quote character, U+0022. *)
Definition dquote : char := 34%N.

(** A Python [float]: an IEEE-754 binary64 value, with the operations of
    the specification of floating-point arithmetic at precision 53 and
    exponent bound 1024. *)
Definition float : Type := spec_float.
Definition float_prec : Z := 53.
Definition float_emax : Z := 1024.

(** [x - y] on floats: rounded to nearest even, infinite on overflow, [nan]
    for [inf - inf] and on a [nan] operand. *)
Definition float_sub (x y : float) : float := SFsub float_prec float_emax x y.

(** What [json.loads] returns.  An integer literal is a Python [int], a
    literal with a fraction or an exponent is a [float] ([1e999] is [inf]),
    and the decoder also accepts [NaN], [Infinity] and [-Infinity].  A JSON
    object is a [dict] with [str] keys, kept as an association list read at
    its first binding. *)
#[local] Unset Elimination Schemes.
Inductive pyval : Type :=
| PNone
| PBool (b : bool)
| PInt (z : Z)
| PFloat (f : float)
| PStr (s : pystr)
| PList (l : list pyval)
| PDict (d : list (pystr * pyval)).
#[local] Set Elimination Schemes.

Definition pydict := list (pystr * pyval).

(** ** Exceptions *)

(** The exception classes the handlers can meet.  [ServiceError] stands for
    whatever the generation client raises (import, construction, prompt
    formatting, transport, authentication). *)
Inductive exn : Type :=
| JSONDecodeError
| AttributeError
| TypeError
| KeyError (k : pyval)
| IndexError
| OverflowError
| UnicodeEncodeError
| ServiceError.

Inductive result (A : Type) : Type :=
| Ok (a : A)
| Raise (e : exn).
Arguments Ok {A} a.
Arguments Raise {A} e.

Global Instance result_ret : MRet result := λ A a, Ok a.
Global Instance result_bind : MBind result := λ A B f m,
  match m with
  | Ok a => f a
  | Raise e => Raise e
  end.

(** Reduce the binds of [result] and nothing else. *)
Ltac result_simpl :=
  cbv beta iota delta [mbind result_bind mret result_ret] in *.

(** [try: body except Exception as e: handler(e)] *)
Definition try_except {A} (body : result A) (handler : exn → A) : A :=
  match body with
  | Ok a => a
  | Raise e => handler e
  end.

(** ** Dictionary access on parsed objects *)

(** [d.get(k)] as an option: [None] when the key is absent. *)
Fixpoint dict_get (d : pydict) (k : pystr) : option pyval :=
  match d with
  | [] => None
  | (k', v) :: d' => if decide (k' = k) then Some v else dict_get d' k
  end.

(** [d[k]]: raises [KeyError] when the key is absent. *)
Definition getitem (d : pydict) (k : pystr) : result pyval :=
  match dict_get d k with
  | Some v => Ok v
  | None => Raise (KeyError (PStr k))
  end.

(** [d.get(k, default)] *)
Definition dict_get_default (d : pydict) (k : pystr) (default : pyval) : pyval :=
  match dict_get d k with
  | Some v => v
  | None => default
  end.

(** [v.get]: only a [dict] has the attribute; on any other parsed value the
    attribute lookup raises [AttributeError]. *)
Definition as_dict (v : pyval) : result pydict :=
  match v with
  | PDict d => Ok d
  | _ => Raise AttributeError
  end.

(** [v == s] for a [str] literal [s]: false on every value that is not a
    [str]; never raises. *)
Definition py_eq_str (v : pyval) (s : pystr) : bool :=
  match v with
  | PStr s' => bool_decide (s' = s)
  | _ => false
  end.

(** [d.get(k) == s]: an absent key gives [None], which differs from [s]. *)
Definition get_eq_str (d : pydict) (k : pystr) (s : pystr) : bool :=
  match dict_get d k with
  | Some v => py_eq_str v s
  | None => false
  end.

(** A Python number: an [int] or a [float]. *)
Inductive pynum : Type :=
| NInt (z : Z)
| NFloat (f : float).

(** Numeric operand of [-]: [bool] is a subclass of [int]; any other
    non-number raises [TypeError]. *)
Definition as_number (v : pyval) : result pynum :=
  match v with
  | PBool b => Ok (NInt (if b then 1 else 0))
  | PInt z => Ok (NInt z)
  | PFloat f => Ok (NFloat f)
  | _ => Raise TypeError
  end.

(** The least magnitude of an [int] that has no [float]: the midpoint
    between the largest finite double and [2^1024], which rounds up. *)
Definition float_overflow_bound : Z := 2 ^ 1024 - 2 ^ 970.

(** [float(z)] as the arithmetic operators apply it to an [int] operand:
    rounded to nearest even, and [OverflowError] when the result would not
    be finite. *)
Definition float_of_int (z : Z) : result float :=
  if (float_overflow_bound <=? Z.abs z)%Z then Raise OverflowError
  else Ok (binary_normalize float_prec float_emax z 0 false).

(** [a - b]: exact on two integers; when either operand is a float the
    other is converted first, then the floats are subtracted. *)
Definition py_sub (a b : pyval) : result pynum :=
  x ← as_number a;
  y ← as_number b;
  match x, y with
  | NInt i, NInt j => Ok (NInt (i - j))
  | NInt i, NFloat g => f ← float_of_int i; Ok (NFloat (float_sub f g))
  | NFloat f, NInt j => g ← float_of_int j; Ok (NFloat (float_sub f g))
  | NFloat f, NFloat g => Ok (NFloat (float_sub f g))
  end.

(** ** Keys of the session store *)

(** A dictionary key up to Python's key equality: [None], a finite number
    by its exact value (equal numbers are one key, so are [True], [1] and
    [1.0]), an infinity, the decoder's one [nan] object, or a string. *)
Inductive pykey : Type :=
| KNone
| KNum (n : Z) (d : positive)
| KInf (negative : bool)
| KNaN
| KStr (s : pystr).

Global Instance pykey_eq_dec : EqDecision pykey.
Proof. solve_decision. Defined.

Global Instance pykey_countable : Countable pykey.
Proof.
  refine (inj_countable'
    (λ k, match k with
          | KNone => inl None
          | KNaN => inl (Some None)
          | KInf b => inl (Some (Some b))
          | KNum n d => inr (inl (n, d))
          | KStr s => inr (inr s)
          end)
    (λ x, match x with
          | inl None => KNone
          | inl (Some None) => KNaN
          | inl (Some (Some b)) => KInf b
          | inr (inl (n, d)) => KNum n d
          | inr (inr s) => KStr s
          end) _).
  by intros [].
Defined.

Definition num_key (q : Q) : pykey :=
  let r := Qred q in KNum (Qnum r) (Qden r).

(** The key of a float: its exact value when it is finite. *)
Definition float_key (f : float) : pykey :=
  match f with
  | S754_zero _ => num_key 0
  | S754_infinity s => KInf s
  | S754_nan => KNaN
  | S754_finite s m e =>
      let n := if s then Z.neg m else Z.pos m in
      match e with
      | Z.neg p => num_key (n # 2 ^ p)
      | _ => num_key (inject_Z (n * 2 ^ e))
      end
  end.

(** Hashing a value for use as a key: lists and dicts are unhashable and
    raise [TypeError]. *)
Definition py_hash (v : pyval) : result pykey :=
  match v with
  | PNone => Ok KNone
  | PBool b => Ok (num_key (if b then 1 else 0))
  | PInt z => Ok (num_key (inject_Z z))
  | PFloat f => Ok (float_key f)
  | PStr s => Ok (KStr s)
  | PList _ | PDict _ => Raise TypeError
  end.

(** ** The session store *)

Record session : Type := mk_session {
  events : list pydict;
  created_at : Q;
  last_activity : Q
}.

Abbreviation store := (gmap pykey session).

(** Literal keys used by the source. *)
Definition k_session_id : pystr := lit "session_id".
Definition k_event_type : pystr := lit "event_type".
Definition k_timestamp : pystr := lit "timestamp".
Definition k_page_type : pystr := lit "page_type".
Arguments k_session_id : simpl never.
Arguments k_event_type : simpl never.
Arguments k_timestamp : simpl never.
Arguments k_page_type : simpl never.

(** ** Statements that read and update the store *)

(** A statement runs on the store and either yields a value or raises; the
    store it leaves is the one the [except] clause then sees. *)
Definition action (A : Type) : Type := store → store * result A.

Global Instance action_ret : MRet action := λ A a st, (st, Ok a).
Global Instance action_bind : MBind action := λ A B f m st,
  match m st with
  | (st', Ok a) => f a st'
  | (st', Raise e) => (st', Raise e)
  end.

(** A statement that does not touch the store. *)
Definition pure_stmt {A} (r : result A) : action A := λ st, (st, r).

(** [k in sessions_store] *)
Definition store_contains (k : pykey) : action bool :=
  λ st, (st, Ok (bool_decide (is_Some (st !! k)))).

(** [sessions_store[k] = s] *)
Definition store_setitem (k : pykey) (s : session) : action unit :=
  λ st, (<[k := s]> st, Ok ()).

(** [sessions_store[k]["events"].append(e)]: the list held by the stored
    session is extended in place. *)
Definition session_append (k : pykey) (sid : pyval) (e : pydict) : action unit :=
  λ st, match st !! k with
        | Some s =>
            (<[k := mk_session (events s ++ [e]) (created_at s) (last_activity s)]> st,
             Ok ())
        | None => (st, Raise (KeyError sid))
        end.

(** [sessions_store[k]["last_activity"] = t] *)
Definition session_touch (k : pykey) (sid : pyval) (t : Q) : action unit :=
  λ st, match st !! k with
        | Some s => (<[k := mk_session (events s) (created_at s) t]> st, Ok ())
        | None => (st, Raise (KeyError sid))
        end.

(** ** Diagnostic output *)

(** A surrogate code point, U+D800 to U+DFFF: a string that holds one
    cannot be encoded as UTF-8. *)
Definition is_surrogate (c : char) : bool := ((55296 <=? c) && (c <=? 57343))%N.

(** The value is formatted into a line as it is: only a [str] is, every
    other value is written through its [repr], which escapes. *)
Definition unprintable (v : pyval) : bool :=
  match v with
  | PStr s => existsb is_surrogate s
  | _ => false
  end.

(** [print(f"... {v1} ... {v2} ...")]: raises [UnicodeEncodeError] when one
    of the formatted values cannot be encoded. *)
Definition print_values (vs : list pyval) : result unit :=
  if existsb unprintable vs then Raise UnicodeEncodeError else Ok ().

(** ** POST /track *)

Inductive track_response : Type :=
| TrackSuccess (session_id : pyval)   (* {"status": "success", "session_id": ...} *)
| TrackError (e : exn).               (* {"error": str(e)} *)

Section Track.

(** The diagnostic line of the handler: [local_app.py] prints the session
    identifier and the event type, [modal_app.py] prints nothing. *)
Variable log : list pyval → result unit.

(** [now n] is the reading of the [n]-th call of [time.time()] made while
    the request is served (a finite float, kept by its exact value: the
    readings are stored and never computed with). *)
Definition track_event_try (now : nat → Q) (body : result pyval)
  : action track_response :=
  event_data ← pure_stmt body;
  d ← pure_stmt (as_dict event_data);
  let session_id := dict_get_default d k_session_id PNone in
  k ← pure_stmt (py_hash session_id);
  present ← store_contains k;
  ticks ← (if present : bool then mret 0%nat
           else _ ← store_setitem k (mk_session [] (now 0%nat) (now 1%nat));
                mret 2%nat);
  _ ← session_append k session_id d;
  _ ← session_touch k session_id (now ticks);
  _ ← pure_stmt (log [session_id; dict_get_default d k_event_type PNone]);
  mret (TrackSuccess session_id).

(** The handler: [body] is the outcome of [json.loads(body.decode())]. *)
Definition track_event (now : nat → Q) (body : result pyval) (st : store)
  : store * track_response :=
  let '(st', r) := track_event_try now body st in
  (st', try_except r TrackError).

End Track.

(** ** Session analyzer *)

(** The dictionary built by [analyze_session_behavior]; the key ["events"]
    (the last five events) is the field [events_tail]. *)
Record summary : Type := mk_summary {
  total_events : nat;
  page_views : nat;
  clicks : nat;
  cart_actions : nat;
  session_duration : pynum;
  product_page_views : nat;
  cart_page_views : nat;
  current_page : pyval;
  has_cart_items : bool;
  events_tail : list pydict
}.

(** The analyzer returns either the empty dictionary [{}] or a full one. *)
Inductive analysis : Type :=
| EmptyAnalysis
| Analysis (s : summary).

(** [[e for e in events if e["event_type"] == ty]]: the subscript raises on
    the first event that has no such key. *)
Fixpoint filter_by_type (ty : pystr) (evs : list pydict) : result (list pydict) :=
  match evs with
  | [] => Ok []
  | e :: evs' =>
      v ← getitem e k_event_type;
      rest ← filter_by_type ty evs';
      Ok (if py_eq_str v ty then e :: rest else rest)
  end.

(** [[e for e in page_views if e.get("page_type") == ty]] *)
Definition filter_by_page (ty : pystr) (evs : list pydict) : list pydict :=
  List.filter (λ e, get_eq_str e k_page_type ty) evs.

(** [events[-5:]] *)
Definition last_five (evs : list pydict) : list pydict :=
  drop (length evs - 5) evs.

Definition analyze_session_behavior (evs : list pydict) : result analysis :=
  match evs with
  | [] => Ok EmptyAnalysis
  | first :: _ =>
      let final := List.last evs first in
      page_views ← filter_by_type (lit "page_view") evs;
      clicks ← filter_by_type (lit "click") evs;
      cart_actions ← filter_by_type (lit "add_to_cart") evs;
      t_last ← getitem final k_timestamp;
      t_first ← getitem first k_timestamp;
      session_duration ← py_sub t_last t_first;
      let product_pages := filter_by_page (lit "product") page_views in
      let cart_pages := filter_by_page (lit "cart") page_views in
      Ok (Analysis {|
        total_events := length evs;
        page_views := length page_views;
        clicks := length clicks;
        cart_actions := length cart_actions;
        session_duration := session_duration;
        product_page_views := length product_pages;
        cart_page_views := length cart_pages;
        current_page := dict_get_default final k_page_type (PStr (lit "unknown"));
        has_cart_items := negb (Nat.eqb (length cart_actions) 0);
        events_tail := last_five evs
      |})
  end.

(** ** Decisions *)

Record AIResponse : Type := mk_response {
  should_show_message : bool;
  message : option pystr;
  trigger_type : option pystr
}.

(** [analysis.get('has_cart_items', False)] *)
Definition get_has_cart_items (a : analysis) : bool :=
  match a with
  | EmptyAnalysis => false
  | Analysis s => has_cart_items s
  end.

(** [analysis.get('total_events', 0)] *)
Definition get_total_events (a : analysis) : nat :=
  match a with
  | EmptyAnalysis => 0
  | Analysis s => total_events s
  end.

Definition msg_free_shipping : pystr :=
  lit "Great choice! Complete your order for free shipping!".
Definition msg_ten_percent : pystr :=
  lit "Still browsing? Get 10% off your first order!".
Definition msg_fifteen_percent : pystr :=
  lit "Thanks for browsing! Get 15% off your first order!".
Definition msg_special_offer : pystr :=
  lit "Special offer just for you!".

Definition get_fallback_decision (a : analysis) : AIResponse :=
  let has_cart := get_has_cart_items a in
  let total_events := get_total_events a in
  if has_cart then
    mk_response true (Some msg_free_shipping) (Some (lit "urgency"))
  else if (3 <=? total_events)%nat then
    mk_response true (Some msg_ten_percent) (Some (lit "discount"))
  else
    mk_response false None None.

(** ** Text search: [in] and [re.search] *)

(** [s.startswith(p)] *)
Fixpoint starts_with (p s : pystr) : bool :=
  match p, s with
  | [], _ => true
  | _ :: _, [] => false
  | c :: p', c' :: s' => bool_decide (c = c') && starts_with p' s'
  end.

(** [needle in s] on strings: the needle occurs at some offset. *)
Fixpoint str_contains (needle s : pystr) : bool :=
  starts_with needle s ||
  match s with
  | [] => false
  | _ :: s' => str_contains needle s'
  end.

(** The class [\s] of a [str] pattern: the code points for which
    [str.isspace] holds. *)
Definition is_space (c : char) : bool :=
  ((9 <=? c) && (c <=? 13) || (28 <=? c) && (c <=? 32) ||
   (c =? 133) || (c =? 160) || (c =? 5760) ||
   (8192 <=? c) && (c <=? 8202) ||
   (c =? 8232) || (c =? 8233) || (c =? 8239) || (c =? 8287) || (c =? 12288))%N.

(** The negated class: any character but the double quote. *)
Definition not_dquote (c : char) : bool := negb (c =? dquote)%N.

(** The fragment of regular expressions the source uses: a sequence of
    literal characters, greedy [cls*], and a capturing group [(cls+)]. *)
Inductive re_item : Type :=
| Lit (c : char)
| Star (cls : char → bool)
| GroupPlus (cls : char → bool).

Definition regex := list re_item.

(** Greedy [cls*] followed by the continuation [k]: take a character when
    the class allows it, and give it back when the rest then fails. *)
Fixpoint star_then {R} (cls : char → bool) (k : pystr → option R) (s : pystr)
  : option R :=
  match s with
  | c :: s' =>
      if cls c then
        match star_then cls k s' with
        | Some r => Some r
        | None => k s
        end
      else k s
  | [] => k []
  end.

(** The same with the consumed text recorded; [acc] is what the group has
    taken so far. *)
Fixpoint star_capture {R} (cls : char → bool) (k : pystr → pystr → option R)
    (acc s : pystr) : option R :=
  match s with
  | c :: s' =>
      if cls c then
        match star_capture cls k (acc ++ [c]) s' with
        | Some r => Some r
        | None => k acc s
        end
      else k acc s
  | [] => k acc []
  end.

(** [(cls+)]: one character of the class, then greedy [cls*]. *)
Definition plus_capture {R} (cls : char → bool) (k : pystr → pystr → option R)
    (s : pystr) : option R :=
  match s with
  | c :: s' => if cls c then star_capture cls k [c] s' else None
  | [] => None
  end.

(** Match the pattern at the start of [s]; the result is the list of the
    groups' texts. *)
Fixpoint match_here (p : regex) (groups : list pystr) (s : pystr)
  : option (list pystr) :=
  match p with
  | [] => Some groups
  | Lit c :: p' =>
      match s with
      | c' :: s' => if (c =? c')%N then match_here p' groups s' else None
      | [] => None
      end
  | Star cls :: p' => star_then cls (match_here p' groups) s
  | GroupPlus cls :: p' =>
      plus_capture cls (λ g rest, match_here p' (groups ++ [g]) rest) s
  end.

(** [re.search(p, s)]: the match at the leftmost offset that has one. *)
Fixpoint re_search (p : regex) (s : pystr) : option (list pystr) :=
  match match_here p [] s with
  | Some groups => Some groups
  | None =>
      match s with
      | [] => None
      | _ :: s' => re_search p s'
      end
  end.

(** [m.group(1)] of a match object. *)
Definition group1 (m : list pystr) : pystr := List.hd [] m.

(** The pattern of the source for the field [name]: the quoted name, a
    colon, [\s*], a double quote, the group of one or more characters other
    than a double quote, and the closing double quote. *)
Definition field_pattern (name : pystr) : regex :=
  (Lit <$> (dquote :: name ++ [dquote; 58%N])) ++
  [Star is_space; Lit dquote; GroupPlus not_dquote; Lit dquote].

(** The text looked for in the reply: [should_show_message], a double
    quote, a colon, one space and [true]. *)
Definition show_marker : pystr :=
  lit "should_show_message" ++ [dquote] ++ lit ": true".

(** ** Decision engine *)

(** The process environment and the generation service.  [chat_completion]
    stands for building the prompt from the analysis and calling
    [client.chat.completions.create]: it raises, or returns the [content]
    of the message of each choice ([None] when the reply has no text). *)
Record environment : Type := mk_env {
  openai_api_key : option pystr;
  chat_completion : analysis → result (list (option pystr))
}.

(** [response.choices[0].message.content] *)
Definition first_content (choices : list (option pystr)) : result (option pystr) :=
  match choices with
  | [] => Raise IndexError
  | c :: _ => Ok c
  end.

(** [marker in ai_text]: raises [TypeError] when [ai_text] is [None]. *)
Definition marker_in (ai_text : option pystr) : result bool :=
  match ai_text with
  | Some t => Ok (str_contains show_marker t)
  | None => Raise TypeError
  end.

(** The branch after the reply text has been read (the [if]/[else] that
    closes the [try] block). *)
Definition decision_of_text (ai_text : option pystr) : result AIResponse :=
  shown ← marker_in ai_text;
  if shown : bool then
    let t := default [] ai_text in
    let message_match := re_search (field_pattern (lit "message")) t in
    let trigger_match := re_search (field_pattern (lit "trigger_type")) t in
    let message :=
      match message_match with Some m => group1 m | None => msg_special_offer end in
    let trigger_type :=
      match trigger_match with Some m => group1 m | None => lit "discount" end in
    Ok (mk_response true (Some message) (Some trigger_type))
  else
    Ok (mk_response false None None).

(** [not openai_api_key]: an unset variable and the empty string are both
    falsy. *)
Definition key_missing (k : option pystr) : bool :=
  match k with
  | None | Some [] => true
  | Some (_ :: _) => false
  end.

(** The lines the engine prints carry the reply of the service; the reply
    is taken to be a text that can be written. *)

Module Local.

(** The diagnostic lines of [local_app.py]'s handlers. *)
Definition log (vs : list pyval) : result unit := print_values vs.

(** [get_ai_decision] of [local_app.py]: the credential is tested first. *)
Definition get_ai_decision (env : environment) (a : analysis) : AIResponse :=
  try_except
    (if key_missing (openai_api_key env) then Ok (get_fallback_decision a)
     else
       choices ← chat_completion env a;
       ai_text ← first_content choices;
       decision_of_text ai_text)
    (λ _, get_fallback_decision a).

End Local.

Module Modal.

(** [modal_app.py]'s handlers print nothing. *)
Definition log (vs : list pyval) : result unit := Ok ().

(** [OpenAI()] reads the credential from the environment and raises when
    there is none: the variable is unset or empty. *)
Definition make_client (env : environment) : result unit :=
  if key_missing (openai_api_key env) then Raise ServiceError else Ok ().

(** [get_ai_decision] of [modal_app.py]: no test of the credential, the
    client is constructed inside the [try] block. *)
Definition get_ai_decision (env : environment) (a : analysis) : AIResponse :=
  try_except
    (_ ← make_client env;
     choices ← chat_completion env a;
     ai_text ← first_content choices;
     decision_of_text ai_text)
    (λ _, get_fallback_decision a).

End Modal.

(** ** POST /analyze *)

Inductive analyze_response : Type :=
| AnalyzeError (msg : pystr)            (* {"error": msg} *)
| AnalyzeDecision (r : AIResponse).     (* the three fields of the decision *)

Definition session_not_found : analyze_response :=
  AnalyzeError (lit "Session not found").

(** The dictionary returned by the [except] clause of the handler. *)
Definition analyze_fallback : analyze_response :=
  AnalyzeDecision (mk_response true (Some msg_fifteen_percent) (Some (lit "discount"))).

Section Analyze.

(** The handler is the same in both files up to its diagnostic line
    ([local_app.py] prints the session identifier once the session is
    found, [modal_app.py] prints nothing) and the decision function. *)
Variable log : list pyval → result unit.
Variable get_ai_decision : environment → analysis → AIResponse.

Definition analyze_session_try (env : environment) (body : result pyval)
    (st : store) : result analyze_response :=
  request_data ← body;
  d ← as_dict request_data;
  let session_id := dict_get_default d k_session_id PNone in
  k ← py_hash session_id;
  match st !! k with
  | None => Ok session_not_found
  | Some session_data =>
      let evs := events session_data in
      _ ← log [session_id];
      analysis ← analyze_session_behavior evs;
      let ai_response := get_ai_decision env analysis in
      Ok (AnalyzeDecision
            (mk_response (should_show_message ai_response)
                         (message ai_response)
                         (trigger_type ai_response)))
  end.

Definition analyze_session (env : environment) (body : result pyval)
    (st : store) : analyze_response :=
  try_except (analyze_session_try env body st) (λ _, analyze_fallback).

End Analyze.

(** * Vocabulary of the properties

    The predicates and sample data the statements below are written with;
    nothing here is part of the program. *)

Definition show_urgency : AIResponse :=
  mk_response true
    (Some (lit "Great choice! Complete your order for free shipping!"))
    (Some (lit "urgency")).
Definition show_discount : AIResponse :=
  mk_response true
    (Some (lit "Still browsing? Get 10% off your first order!"))
    (Some (lit "discount")).
Definition no_message : AIResponse :=
  mk_response false None None.

(** The heuristic as the specification words it: a relation between the
    cart flag, the event count and the decision. *)
Inductive fallback_rule : bool → nat → AIResponse → Prop :=
| rule_cart n : fallback_rule true n show_urgency
| rule_busy n : 3 ≤ n → fallback_rule false n show_discount
| rule_quiet n : n < 3 → fallback_rule false n no_message.

(** An event the comprehensions can read: it has an [event_type] key. *)
Definition typed (e : pydict) : Prop := is_Some (dict_get e k_event_type).

(** [e["event_type"] == ty], when the key is there. *)
Definition has_type (ty : pystr) (e : pydict) : bool :=
  get_eq_str e k_event_type ty.

(** The event falls in none of the three typed buckets. *)
Definition other_type (e : pydict) : bool :=
  negb (has_type (lit "page_view") e || has_type (lit "click") e
        || has_type (lit "add_to_cart") e).

(** The integer an operand of [-] stands for: a [bool] is 0 or 1. *)
Definition int_value (v : pyval) : option Z :=
  match v with
  | PBool b => Some (if b then 1 else 0)%Z
  | PInt z => Some z
  | _ => None
  end.

(** The integer has a float: its magnitude is below [2^1024 - 2^970]. *)
Definition fits_float (z : Z) : bool := (Z.abs z <? 2 ^ 1024 - 2 ^ 970)%Z.

(** The double nearest to an integer, ties to even. *)
Definition nearest_float (z : Z) : float := binary_normalize 53 1024 z 0 false.

(** What Python's [a - b] is, by the types of the operands: the exact
    difference of two integers; the IEEE-754 difference of two floats; for
    an integer and a float, the difference after the integer is rounded to
    a float.  There is none when an operand is not a number, or when an
    integer that has no float meets a float. *)
Definition python_difference (a b : pyval) : option pynum :=
  match int_value a, int_value b with
  | Some i, Some j => Some (NInt (i - j))
  | Some i, None =>
      match b with
      | PFloat g =>
          if fits_float i then Some (NFloat (SFsub 53 1024 (nearest_float i) g))
          else None
      | _ => None
      end
  | None, Some j =>
      match a with
      | PFloat f =>
          if fits_float j then Some (NFloat (SFsub 53 1024 f (nearest_float j)))
          else None
      | _ => None
      end
  | None, None =>
      match a, b with
      | PFloat f, PFloat g => Some (NFloat (SFsub 53 1024 f g))
      | _, _ => None
      end
  end.

(** The value is a number: an [int], a [bool] or a [float]. *)
Definition is_number (v : pyval) : bool :=
  match v with
  | PBool _ | PInt _ | PFloat _ => true
  | _ => false
  end.

Definition is_float (v : pyval) : bool :=
  match v with
  | PFloat _ => true
  | _ => false
  end.



(** The float is negative: a negative finite value or minus infinity. *)
Definition float_negative (f : float) : bool :=
  match f with
  | S754_finite true _ _ | S754_infinity true => true
  | _ => false
  end.

(** A single timestamp that [json.loads] cannot subtract from itself to
    zero: an infinity or [nan]. *)
Definition not_finite (v : pyval) : bool :=
  match v with
  | PFloat (S754_infinity _) | PFloat S754_nan => true
  | _ => false
  end.

(** A sequence the analyzer can read: it is not empty, every event has an
    [event_type], and the first and last events have timestamps that
    Python can subtract. *)
Definition readable (evs : list pydict) : Prop :=
  Forall typed evs ∧
  ∃ e0 en a b, head evs = Some e0 ∧ last evs = Some en ∧
               dict_get en k_timestamp = Some a ∧ dict_get e0 k_timestamp = Some b ∧
               is_Some (python_difference a b).

(** The summary built on a readable sequence. *)
Definition summary_of (first : pydict) (evs : list pydict) (duration : pynum) : summary :=
  let views := List.filter (has_type (lit "page_view")) evs in
  let carts := List.filter (has_type (lit "add_to_cart")) evs in
  {| total_events := length evs;
     page_views := length views;
     clicks := length (List.filter (has_type (lit "click")) evs);
     cart_actions := length carts;
     session_duration := duration;
     product_page_views := length (filter_by_page (lit "product") views);
     cart_page_views := length (filter_by_page (lit "cart") views);
     current_page :=
       dict_get_default (List.last evs first) k_page_type (PStr (lit "unknown"));
     has_cart_items := negb (Nat.eqb (length carts) 0);
     events_tail := last_five evs |}.

(** Sample events for the executable checks below. *)
Definition on_page (p : string) : option string := Some p.

Definition sample_event (ty : string) (ts : Z) (page : option string) : pydict :=
  [(k_session_id, PStr (lit "s1")); (k_event_type, PStr (lit ty));
   (k_timestamp, PInt ts)] ++
  match page with
  | Some p => [(k_page_type, PStr (lit p))]
  | None => []
  end.

Definition sample_events : list pydict :=
  [sample_event "page_view" 5 (on_page "product"); sample_event "scroll" 7 None;
   sample_event "add_to_cart" 3 (on_page "cart")].

(** [event_data.get("session_id")] *)
Definition session_id_of (d : pydict) : pyval :=
  dict_get_default d k_session_id PNone.

(** [event_data.get('event_type')] *)
Definition event_type_of (d : pydict) : pyval :=
  dict_get_default d k_event_type PNone.

(** The value is a string that holds a surrogate, a code point from U+D800
    to U+DFFF: such a string has no UTF-8 encoding. *)
Definition holds_surrogate (v : pyval) : Prop :=
  ∃ s c, v = PStr s ∧ c ∈ s ∧ (55296 ≤ c)%N ∧ (c ≤ 57343)%N.

(** The session left under the key of a recorded event: the event is
    appended to the stored list, or a fresh session holds it alone. *)
Definition recorded (now : nat → Q) (d : pydict) (old : option session) : session :=
  match old with
  | Some s => mk_session (events s ++ [d]) (created_at s) (now 0%nat)
  | None => mk_session [d] (now 0%nat) (now 2%nat)
  end.

(** The key a request is recorded under, if it is recorded at all. *)
Definition request_key (body : result pyval) : option pykey :=
  match body ≫= as_dict with
  | Ok d =>
      match py_hash (session_id_of d) with
      | Ok k => Some k
      | Raise _ => None
      end
  | Raise _ => None
  end.

(** A run of [/track] requests from a given store. *)
Definition request : Type := (nat → Q) * result pyval.

Definition run_tracks (log : list pyval → result unit) (reqs : list request)
    (st : store) : store :=
  fold_left (λ st r, (track_event log r.1 r.2 st).1) reqs st.

(** The events a store holds for a key; none when the key is absent. *)
Definition events_of (st : store) (k : pykey) : list pydict :=
  from_option events [] (st !! k).

(** The ways the engine gets no reply text from the generation service:
    the credential is unset, the call raises, the reply has no choice, or
    the first choice has no content. *)
Inductive no_reply (env : environment) (a : analysis) : Prop :=
| credential_unset : openai_api_key env = None → no_reply env a
| call_raises e : chat_completion env a = Raise e → no_reply env a
| no_choice : chat_completion env a = Ok [] → no_reply env a
| no_content rest : chat_completion env a = Ok (None :: rest) → no_reply env a.

(** The reply text the engine reads, when there is one. *)
Definition reply_text (env : environment) (a : analysis) : option pystr :=
  match chat_completion env a with
  | Ok (Some t :: _) => Some t
  | _ => None
  end.

(** A service that is configured and fails. *)
Definition env_failing : environment :=
  mk_env (Some (lit "sk-test")) (λ _, Raise ServiceError).




(** The colon, U+003A. *)
Definition colon : char := 58%N.

(** The text a field opens with: the quoted name and a colon. *)
Definition field_head (name : pystr) : pystr := dquote :: name ++ [dquote; colon].

(** The field [name] stands at the start of [s] with the value [cap]:
    the head, a run of white space, and the non-empty quoted value, which
    holds no double quote. *)
Definition field_at (name cap s : pystr) : Prop :=
  ∃ ws rest,
    s = field_head name ++ ws ++ [dquote] ++ cap ++ [dquote] ++ rest ∧
    Forall (λ c, is_space c = true) ws ∧
    cap ≠ [] ∧
    Forall (λ c, c ≠ dquote) cap.

(** [cap] is the value of the leftmost occurrence of the field in [text]. *)
Definition first_field (name text cap : pystr) : Prop :=
  ∃ pre s,
    text = pre ++ s ∧ field_at name cap s ∧
    ∀ pre' s' cap', text = pre' ++ s' → length pre' < length pre →
                    ¬ field_at name cap' s'.

(** The field occurs nowhere in [text]. *)
Definition no_field (name text : pystr) : Prop :=
  ∀ pre s cap, text = pre ++ s → ¬ field_at name cap s.

(** What the engine reports for a field: the value of its leftmost
    occurrence, or the default when there is none. *)
Definition field_value (name default text v : pystr) : Prop :=
  first_field name text v ∨ (no_field name text ∧ v = default).

(** A text between double quotes. *)
Definition quoted (s : pystr) : pystr := [dquote] ++ s ++ [dquote].

(** A reply that sets the marker and the message and names no trigger. *)
Definition sample_reply : pystr :=
  lit "{" ++ quoted (lit "should_show_message") ++ lit ": true, " ++
  quoted (lit "message") ++ lit ":  " ++ quoted (lit "Hi there") ++ lit "}".

Definition env_replying : environment :=
  mk_env (Some (lit "sk-test")) (λ _, Ok [Some sample_reply]).

(** The object a request carries, when its body parses to one. *)
Definition request_dict (body : result pyval) : option pydict :=
  match body ≫= as_dict with
  | Ok d => Some d
  | Raise _ => None
  end.

(** The objects of a run that are recorded under the key [k], in the order
    of arrival. *)
Definition recorded_under (k : pykey) (reqs : list request) : list pydict :=
  omap (λ r : request,
          if decide (request_key r.2 = Some k) then request_dict r.2 else None)
       reqs.

(** The clock readings of a run never go back: each request reads a
    non-decreasing clock that starts no earlier than [t], and the next
    request starts no earlier than this one ended.  (A reading the handler
    does not take can be set to the one before it.) *)
Fixpoint monotone_clock (t : Q) (reqs : list request) : Prop :=
  match reqs with
  | [] => True
  | r :: rs =>
      (t <= r.1 0%nat)%Q ∧ (r.1 0%nat <= r.1 1%nat)%Q ∧ (r.1 1%nat <= r.1 2%nat)%Q ∧
      monotone_clock (r.1 2%nat) rs
  end.

(** A text that is not empty and holds no double quote. *)
Definition clean_text (s : pystr) : Prop :=
  s ≠ [] ∧ Forall (λ c, c ≠ dquote) s.

(** A decision is well formed when its message and trigger are there
    exactly if it is shown, and are clean texts then. *)
Definition well_formed (r : AIResponse) : Prop :=
  if should_show_message r then
    ∃ m t, message r = Some m ∧ trigger_type r = Some t ∧ clean_text m ∧ clean_text t
  else message r = None ∧ trigger_type r = None.





(** * Properties *)

(** ** The fallback heuristic *)

Lemma fallback_rule_functional cart n r1 r2 :
  fallback_rule cart n r1 → fallback_rule cart n r2 → r1 = r2.
Proof. destruct 1; inversion 1; subst; (reflexivity || lia). Qed.

Lemma fallback_follows_rule (a : analysis) :
  fallback_rule (get_has_cart_items a) (get_total_events a) (get_fallback_decision a).
Proof.
  unfold get_fallback_decision.
  destruct (get_has_cart_items a); [constructor |].
  destruct (Nat.leb_spec 3 (get_total_events a)); constructor; lia.
Qed.

Lemma local_unconfigured chat a :
  Local.get_ai_decision (mk_env None chat) a = get_fallback_decision a.
Proof. reflexivity. Qed.

Lemma local_empty_key chat a :
  Local.get_ai_decision (mk_env (Some []) chat) a = get_fallback_decision a.
Proof. reflexivity. Qed.

Lemma modal_unconfigured chat a :
  Modal.get_ai_decision (mk_env None chat) a = get_fallback_decision a.
Proof. reflexivity. Qed.

Lemma modal_empty_key chat a :
  Modal.get_ai_decision (mk_env (Some []) chat) a = get_fallback_decision a.
Proof. reflexivity. Qed.

(** C1. Without a generation credential (the variable is unset or empty)
    both variants of the engine return the fallback decision, whatever the
    service would answer.  For a summary, the fallback decision is read off
    its fields: cart items give the urgency decision with the free-shipping
    text whatever the count, otherwise three or more events give the
    discount decision with the 10%-off text, otherwise nothing is shown and
    the decision has neither message nor trigger; the empty summary shows
    nothing; two events without cart items show nothing. *)
Theorem fallback_decision_rule (chat : analysis → result (list (option pystr)))
    (a : analysis) (s : summary) :
  Local.get_ai_decision (mk_env None chat) a = get_fallback_decision a ∧
  Modal.get_ai_decision (mk_env None chat) a = get_fallback_decision a ∧
  Local.get_ai_decision (mk_env (Some []) chat) a = get_fallback_decision a ∧
  Modal.get_ai_decision (mk_env (Some []) chat) a = get_fallback_decision a ∧
  fallback_rule (get_has_cart_items a) (get_total_events a) (get_fallback_decision a) ∧
  get_fallback_decision (Analysis s) =
    (if has_cart_items s then
       mk_response true
         (Some (lit "Great choice! Complete your order for free shipping!"))
         (Some (lit "urgency"))
     else if (3 <=? total_events s)%nat then
       mk_response true
         (Some (lit "Still browsing? Get 10% off your first order!"))
         (Some (lit "discount"))
     else mk_response false None None) ∧
  get_fallback_decision EmptyAnalysis = mk_response false None None ∧
  get_fallback_decision
    (Analysis (mk_summary 2 (page_views s) (clicks s) (cart_actions s)
                 (session_duration s) (product_page_views s) (cart_page_views s)
                 (current_page s) false (events_tail s)))
    = mk_response false None None.
Proof.
  split; [apply local_unconfigured |].
  split; [apply modal_unconfigured |].
  split; [apply local_empty_key |].
  split; [apply modal_empty_key |].
  split; [apply fallback_follows_rule |].
  split; [| split; reflexivity].
  unfold get_fallback_decision. cbn [get_has_cart_items get_total_events].
  by destruct (has_cart_items s), (3 <=? total_events s)%nat.
Qed.

(** ** The analyzer *)

Lemma getitem_typed e :
  typed e → ∃ v, getitem e k_event_type = Ok v ∧ dict_get e k_event_type = Some v.
Proof. intros [v Hv]. exists v. unfold getitem. by rewrite Hv. Qed.

Lemma getitem_untyped e :
  ¬ typed e → getitem e k_event_type = Raise (KeyError (PStr k_event_type)).
Proof.
  intros Hn. unfold getitem, typed in *.
  destruct (dict_get e k_event_type); [exfalso; eauto | done].
Qed.

Lemma filter_by_type_ok ty evs :
  Forall typed evs → filter_by_type ty evs = Ok (List.filter (has_type ty) evs).
Proof.
  induction 1 as [| e evs He _ IH]; [done |].
  destruct (getitem_typed e He) as (v & Hg & Hd).
  cbn [filter_by_type List.filter]. rewrite Hg, IH. cbn.
  unfold has_type, get_eq_str. by rewrite Hd.
Qed.

Lemma filter_by_type_raise ty evs :
  ¬ Forall typed evs →
  filter_by_type ty evs = Raise (KeyError (PStr k_event_type)).
Proof.
  induction evs as [| e evs IH]; intros Hn; [by destruct Hn |].
  cbn [filter_by_type].
  destruct (dict_get e k_event_type) as [v |] eqn:Hd.
  - unfold getitem. rewrite Hd. cbn. rewrite IH; [done |].
    intros Hall. apply Hn. constructor; [by exists v | done].
  - rewrite getitem_untyped; [done |]. unfold typed. rewrite Hd. by intros [? ?].
Qed.

Lemma typed_dec evs : Forall typed evs ∨ ¬ Forall typed evs.
Proof.
  induction evs as [| e evs [IH | IH]].
  - left. constructor.
  - unfold typed at 1. destruct (dict_get e k_event_type) eqn:Hd.
    + left. constructor; [unfold typed; rewrite Hd; eauto | done].
    + right. inversion 1 as [| ? ? [? Hs] ?]; subst. unfold typed in *. congruence.
  - right. inversion 1; subst. by apply IH.
Qed.

Lemma filter_by_type_inv ty evs l :
  filter_by_type ty evs = Ok l →
  Forall typed evs ∧ l = List.filter (has_type ty) evs.
Proof.
  intros Hf. destruct (typed_dec evs) as [Hall | Hn].
  - split; [done |]. rewrite filter_by_type_ok in Hf by done. congruence.
  - rewrite filter_by_type_raise in Hf by done. discriminate.
Qed.

Lemma filter_length_cons {A} (f : A → bool) x l :
  length (List.filter f (x :: l)) = Nat.b2n (f x) + length (List.filter f l).
Proof. cbn [List.filter]. by destruct (f x). Qed.

(** Every event falls in exactly one of the three typed buckets or the rest. *)
Lemma one_bucket e :
  Nat.b2n (has_type (lit "page_view") e) + Nat.b2n (has_type (lit "click") e) +
  Nat.b2n (has_type (lit "add_to_cart") e) + Nat.b2n (other_type e) = 1.
Proof.
  unfold other_type, has_type, get_eq_str.
  destruct (dict_get e k_event_type) as [[| | | | s | |] |]; try reflexivity.
  cbn [py_eq_str].
  repeat case_bool_decide; subst; try discriminate; reflexivity.
Qed.

(** The three typed buckets and the rest partition the events. *)
Lemma buckets_partition evs :
  length (List.filter (has_type (lit "page_view")) evs) +
  length (List.filter (has_type (lit "click")) evs) +
  length (List.filter (has_type (lit "add_to_cart")) evs) +
  length (List.filter other_type evs) = length evs.
Proof.
  induction evs as [| e evs IH]; [done |].
  rewrite !filter_length_cons. pose proof (one_bucket e). cbn [length]. lia.
Qed.

(** The subtraction of the source against Python's [-] on the parsed
    values: it returns the difference where there is one, and raises
    [TypeError] on an operand that is not a number, [OverflowError]
    otherwise. *)
Lemma py_sub_difference a b :
  py_sub a b =
    match python_difference a b with
    | Some d => Ok d
    | None => Raise (if is_number a && is_number b then OverflowError else TypeError)
    end.
Proof.
  unfold py_sub, python_difference, float_of_int, float_overflow_bound, fits_float,
    nearest_float, float_sub, float_prec, float_emax.
  destruct a as [| [] | i | f | | |], b as [| [] | j | g | | |];
    cbn [as_number int_value is_number andb]; result_simpl; try reflexivity;
    rewrite Z.leb_antisym; by destruct (_ <? _)%Z.
Qed.

(** The subtraction on sample operands: [0.3 - 0.1] is
    [0.19999999999999998]; [2^1024 - 2^970 - 1] is the largest integer that
    has a float, the largest double; [2^53 + 1] rounds to [2^53], so that
    [(2^53 + 1) - 1.0] is [2^53 - 1]; [True] counts as 1; a [nan] does not
    hide the overflow of the other operand. *)
Example py_sub_samples :
  py_sub (PFloat (S754_finite false 5404319552844595 (-54)))
         (PFloat (S754_finite false 7205759403792794 (-56)))
    = Ok (NFloat (S754_finite false 7205759403792793 (-55))) ∧
  float_of_int (2 ^ 1024 - 2 ^ 970 - 1) = Ok (S754_finite false 9007199254740991 971) ∧
  float_of_int (2 ^ 1024 - 2 ^ 970) = Raise OverflowError ∧
  float_of_int (- (2 ^ 1024 - 2 ^ 970)) = Raise OverflowError ∧
  float_of_int (2 ^ 53 + 1) = Ok (S754_finite false 4503599627370496 1) ∧
  py_sub (PInt (2 ^ 53 + 1)) (PFloat (S754_finite false 4503599627370496 (-52)))
    = Ok (NFloat (S754_finite false 9007199254740991 0)) ∧
  py_sub (PBool true) (PInt 3) = Ok (NInt (-2)) ∧
  py_sub (PFloat S754_nan) (PInt (10 ^ 400)) = Raise OverflowError ∧
  py_sub (PStr []) (PInt 1) = Raise TypeError ∧
  py_sub (PInt 1) (PNone) = Raise TypeError.
Proof. repeat split; vm_compute; reflexivity. Qed.

Lemma py_sub_ok_iff a b d : py_sub a b = Ok d ↔ python_difference a b = Some d.
Proof.
  rewrite py_sub_difference. destruct (python_difference a b); split; congruence.
Qed.


Lemma analyze_ok e0 evs' a b d :
  Forall typed (e0 :: evs') →
  dict_get (List.last (e0 :: evs') e0) k_timestamp = Some a →
  dict_get e0 k_timestamp = Some b →
  python_difference a b = Some d →
  analyze_session_behavior (e0 :: evs') =
    Ok (Analysis (summary_of e0 (e0 :: evs') d)).
Proof.
  intros Hall Ha Hb Hd. unfold analyze_session_behavior.
  rewrite !filter_by_type_ok by done. cbn [mbind result_bind].
  unfold getitem. rewrite Ha, Hb. cbn [mbind result_bind].
  apply py_sub_ok_iff in Hd. by rewrite Hd.
Qed.

Lemma analyze_ok_inv evs s :
  analyze_session_behavior evs = Ok (Analysis s) →
  ∃ e0 evs' a b d,
    evs = e0 :: evs' ∧ Forall typed evs ∧
    dict_get (List.last evs e0) k_timestamp = Some a ∧
    dict_get e0 k_timestamp = Some b ∧
    python_difference a b = Some d ∧
    s = summary_of e0 evs d.
Proof.
  destruct evs as [| e0 evs']; [discriminate |].
  intros Ha. destruct (typed_dec (e0 :: evs')) as [Hall | Hn].
  - unfold analyze_session_behavior in Ha.
    rewrite !filter_by_type_ok in Ha by done.
    remember (List.last (e0 :: evs') e0) as en eqn:Hen.
    unfold getitem in Ha.
    destruct (dict_get en k_timestamp) as [a |] eqn:Hga; [| done].
    destruct (dict_get e0 k_timestamp) as [b |] eqn:Hgb; [| done].
    result_simpl.
    destruct (py_sub a b) as [d |] eqn:Hd; [| done].
    injection Ha as <-. apply py_sub_ok_iff in Hd.
    exists e0, evs', a, b, d. subst en. by repeat split.
  - unfold analyze_session_behavior in Ha.
    rewrite (filter_by_type_raise (lit "page_view")) in Ha by done. discriminate.
Qed.

Lemma analyze_empty_iff evs :
  analyze_session_behavior evs = Ok EmptyAnalysis ↔ evs = [].
Proof.
  split; [| by intros ->]. intros Ha. destruct evs as [| e0 evs']; [done |].
  exfalso. destruct (typed_dec (e0 :: evs')) as [Hall | Hn].
  - unfold analyze_session_behavior in Ha.
    rewrite !filter_by_type_ok in Ha by done.
    destruct (getitem (List.last (e0 :: evs') e0) k_timestamp); [| done].
    destruct (getitem e0 k_timestamp) as [b |]; [| done].
    result_simpl. by destruct (py_sub _ b).
  - unfold analyze_session_behavior in Ha.
    by rewrite (filter_by_type_raise (lit "page_view")) in Ha by done.
Qed.

Lemma analyze_raises evs :
  evs ≠ [] →
  (∀ s, analyze_session_behavior evs ≠ Ok (Analysis s)) →
  ∃ e, analyze_session_behavior evs = Raise e.
Proof.
  intros Hne Hno. destruct (analyze_session_behavior evs) as [[| s] | e] eqn:Ha.
  - by apply analyze_empty_iff in Ha.
  - by destruct (Hno s).
  - by exists e.
Qed.

Lemma last_cons_default {A} (x : A) l : last (x :: l) = Some (List.last (x :: l) x).
Proof.
  revert x. induction l as [| y l IH]; intros x; [done |].
  rewrite last_cons_cons, IH. cbn [List.last]. destruct l; [done |].
  f_equal. clear. revert y. induction l as [| z l IH]; intros y; [done |].
  cbn [List.last] in *. destruct l; [done | apply IH].
Qed.


(** A timestamp that is not a number makes the subtraction raise. *)
Example summarize_raises_on_text_timestamp :
  analyze_session_behavior
    [[(k_event_type, PStr (lit "click")); (k_timestamp, PStr (lit "noon"))]]
  = Raise TypeError.
Proof. reflexivity. Qed.

(** So does a float timestamp against an integer one of 310 digits. *)
Example summarize_raises_on_huge_timestamp :
  analyze_session_behavior
    [[(k_event_type, PStr (lit "click")); (k_timestamp, PInt (10 ^ 309))];
     [(k_event_type, PStr (lit "click"));
      (k_timestamp, PFloat (S754_finite false 4503599627370496 (-53)))]]
  = Raise OverflowError.
Proof. vm_compute. reflexivity. Qed.

(** The analyzer returns a summary on the readable sequences and raises on
    every other non-empty one. *)
Lemma analyze_returns_iff evs :
  (∃ s, analyze_session_behavior evs = Ok (Analysis s)) ↔ readable evs.
Proof.
  unfold readable. split.
  - intros [s Ha].
    apply analyze_ok_inv in Ha as (e0 & evs' & a & b & d & -> & Hall & Ha & Hb & Hd & _).
    split; [done |]. exists e0, (List.last (e0 :: evs') e0), a, b.
    split; [done |]. split; [apply last_cons_default |]. by repeat split.
  - intros (Hall & e0 & en & a & b & Hhd & Hlast & Ha & Hb & [d Hd]).
    destruct evs as [| e0' evs']; [done |]. injection Hhd as ->.
    rewrite last_cons_default in Hlast. injection Hlast as <-.
    eexists. by eapply analyze_ok.
Qed.

Lemma analyze_raises_iff evs :
  evs ≠ [] → (∃ e, analyze_session_behavior evs = Raise e) ↔ ¬ readable evs.
Proof.
  intros Hne. rewrite <- analyze_returns_iff. split.
  - intros [e He] [s Hs]. congruence.
  - intros Hno. apply analyze_raises; [done |]. intros s Hs. apply Hno. by exists s.
Qed.



(** ** Float subtraction keeps the order

    The sign of a rounded difference, read off the definitions of the
    floating-point specification: a negative exact difference of two
    canonical floats never rounds to zero. *)

Section Rounding.

Local Open Scope Z_scope.

Variables prec emax : Z.
Hypothesis prec_pos : 0 < prec.

Lemma digits2_pos_bounds m :
  2 ^ (Zpos (digits2_pos m) - 1) <= Zpos m < 2 ^ Zpos (digits2_pos m).
Proof using Type*.
  induction m as [m IH | m IH |]; cbn [digits2_pos].
  - rewrite Pos2Z.inj_succ, Z.pow_succ_r by lia.
    replace (Z.succ (Zpos (digits2_pos m)) - 1) with (Z.succ (Zpos (digits2_pos m) - 1)) by lia.
    rewrite Z.pow_succ_r by lia. lia.
  - rewrite Pos2Z.inj_succ, Z.pow_succ_r by lia.
    replace (Z.succ (Zpos (digits2_pos m)) - 1) with (Z.succ (Zpos (digits2_pos m) - 1)) by lia.
    rewrite Z.pow_succ_r by lia. lia.
  - cbn. lia.
Qed.

Lemma shr_1_lower mrs k : 2 * k <= shr_m mrs -> k <= shr_m (shr_1 mrs).
Proof using Type*.
  destruct mrs as [m r s]. cbn [shr_m shr_1].
  destruct m as [| [p | p |] | [p | p |]]; cbn [shr_m]; lia.
Qed.

Lemma iter_shr_1_lower p : forall mrs k,
  0 <= k -> 2 ^ Zpos p * k <= shr_m mrs -> k <= shr_m (SpecFloat.iter_pos shr_1 p mrs).
Proof using Type*.
  induction p as [p IH | p IH |]; intros mrs k Hk Hm; cbn [SpecFloat.iter_pos].
  - assert (0 < 2 ^ Zpos p) by (apply Z.pow_pos_nonneg; lia).
    replace (Zpos p~1) with (1 + Zpos p + Zpos p) in Hm by lia.
    rewrite !Z.pow_add_r, Z.pow_1_r in Hm by lia.
    apply IH; [lia |]. apply IH; [apply Z.mul_nonneg_nonneg; lia |].
    apply shr_1_lower. rewrite !Z.mul_assoc. exact Hm.
  - assert (0 < 2 ^ Zpos p) by (apply Z.pow_pos_nonneg; lia).
    replace (Zpos p~0) with (Zpos p + Zpos p) in Hm by lia.
    rewrite Z.pow_add_r in Hm by lia.
    apply IH; [lia |]. apply IH; [apply Z.mul_nonneg_nonneg; lia |].
    rewrite Z.mul_assoc. exact Hm.
  - apply shr_1_lower. rewrite Z.pow_1_r in Hm. exact Hm.
Qed.

Lemma shr_m_of_loc m l : shr_m (shr_record_of_loc m l) = m.
Proof using Type*. destruct l as [| []]; reflexivity. Qed.

(** Shifting a positive mantissa to its format exponent leaves it
    positive, when the exponent is not below the least one. *)
Lemma shr_fexp_positive m e l :
  0 < m -> emin prec emax <= e ->
  0 < shr_m (fst (shr_fexp prec emax m e l)) /\
  emin prec emax <= snd (shr_fexp prec emax m e l).
Proof using Type*.
  intros Hm He. unfold shr_fexp, shr.
  destruct m as [| p | p]; try lia. cbn [Zdigits2].
  pose proof (digits2_pos_bounds p) as [Hlo _].
  remember (Zpos (digits2_pos p)) as d eqn:Hd.
  unfold fexp.
  destruct (Z.max (d + e - prec) (emin prec emax) - e) as [| q | q] eqn:Hn;
    cbn [fst snd]; rewrite ?shr_m_of_loc; try (split; lia).
  split; [| lia].
  assert (Zpos q = d - prec) as Hq by lia.
  apply Z.lt_le_trans with (2 ^ (prec - 1)); [apply Z.pow_pos_nonneg; lia |].
  apply iter_shr_1_lower; [apply Z.pow_nonneg; lia |].
  rewrite shr_m_of_loc, Hq, <- Z.pow_add_r by lia.
  replace (d - prec + (prec - 1)) with (d - 1) by lia. exact Hlo.
Qed.

Lemma round_nearest_even_lower m l : m <= round_nearest_even m l.
Proof using Type*. destruct l as [| []]; cbn [round_nearest_even]; try lia. destruct (Z.even m); lia. Qed.

(** Rounding keeps the sign: the result is a finite float or an infinity
    of the sign that was given, never a zero. *)
Lemma binary_round_aux_sign sx m e l :
  0 < m -> emin prec emax <= e ->
  (exists m' e', binary_round_aux prec emax sx m e l = S754_finite sx m' e') \/
  binary_round_aux prec emax sx m e l = S754_infinity sx.
Proof using Type*.
  intros Hm He. unfold binary_round_aux.
  pose proof (shr_fexp_positive m e l Hm He) as [Hm1 He1].
  destruct (shr_fexp prec emax m e l) as [mrs' e']. cbn [fst snd] in Hm1, He1.
  pose proof (round_nearest_even_lower (shr_m mrs') (loc_of_shr_record mrs')) as Hr.
  remember (round_nearest_even (shr_m mrs') (loc_of_shr_record mrs')) as m1.
  assert (0 < m1) as Hm1' by lia.
  pose proof (shr_fexp_positive m1 e' loc_Exact Hm1' He1) as [Hm2 _].
  destruct (shr_fexp prec emax m1 e' loc_Exact) as [mrs'' e'']. cbn [fst] in Hm2.
  destruct (shr_m mrs'') as [| p | p]; try lia.
  destruct (e'' <=? emax - prec); [left; eauto | right; reflexivity].
Qed.

Lemma binary_round_sign sx m e :
  emin prec emax <= e ->
  (exists m' e', binary_round prec emax sx m e = S754_finite sx m' e') \/
  binary_round prec emax sx m e = S754_infinity sx.
Proof using Type*.
  intros He. unfold binary_round, shl_align.
  destruct (fexp prec emax (Zpos (digits2_pos m) + e) - e) as [| d | d] eqn:Hd;
    apply binary_round_aux_sign; try lia.
  unfold fexp. lia.
Qed.

Lemma binary_normalize_negative z e s :
  z < 0 -> emin prec emax <= e ->
  float_negative (binary_normalize prec emax z e s) = true.
Proof using Type*.
  intros Hz He. destruct z as [| p | p]; try lia. cbn [binary_normalize].
  destruct (binary_round_sign true p e He) as [(m' & e' & ->) | ->]; reflexivity.
Qed.

Lemma iter_xO_value m d : Zpos (Pos.iter xO m d) = Zpos m * 2 ^ Zpos d.
Proof using Type*.
  induction d as [| d IH] using Pos.peano_ind.
  - cbn. lia.
  - rewrite Pos.iter_succ, Pos2Z.inj_xO, IH, Pos2Z.inj_succ, Z.pow_succ_r by lia. lia.
Qed.

Lemma shl_align_value m e e' :
  e' <= e -> Zpos (fst (shl_align m e e')) = Zpos m * 2 ^ (e - e').
Proof using Type*.
  intros He. unfold shl_align.
  destruct (e' - e) as [| d | d] eqn:Hd; cbn [fst]; try lia.
  - replace (e - e') with 0 by lia. lia.
  - rewrite iter_xO_value. f_equal. f_equal. lia.
Qed.

(** The larger exponent of two canonical floats is that of the larger
    magnitude. *)
Lemma canonical_exponent_lt m1 e1 m2 e2 :
  canonical_mantissa prec emax m1 e1 = true ->
  canonical_mantissa prec emax m2 e2 = true ->
  e1 < e2 -> Zpos m1 < Zpos m2 * 2 ^ (e2 - e1).
Proof using Type*.
  unfold canonical_mantissa, fexp. rewrite !Z.eqb_eq. intros H1 H2 Hlt.
  pose proof (digits2_pos_bounds m1) as [_ Hhi].
  pose proof (digits2_pos_bounds m2) as [Hlo _].
  assert (Zpos (digits2_pos m2) = prec) as Hd2 by lia.
  assert (Zpos (digits2_pos m1) <= prec) as Hd1 by lia.
  rewrite Hd2 in Hlo.
  assert (2 ^ Zpos (digits2_pos m1) <= 2 ^ prec) by (apply Z.pow_le_mono_r; lia).
  assert (2 ^ 1 <= 2 ^ (e2 - e1)) by (apply Z.pow_le_mono_r; lia).
  assert (2 ^ prec = 2 ^ (prec - 1) * 2 ^ 1) as Hp.
  { rewrite <- Z.pow_add_r by lia. f_equal. lia. }
  assert (0 < 2 ^ (prec - 1)) by (apply Z.pow_pos_nonneg; lia).
  nia.
Qed.

Lemma canonical_exponent_min m e :
  canonical_mantissa prec emax m e = true -> emin prec emax <= e.
Proof using Type*. unfold canonical_mantissa, fexp. rewrite Z.eqb_eq. lia. Qed.

(** The difference of two valid floats, the first below the second, is
    negative. *)
Lemma SFsub_negative f g :
  valid_binary prec emax f = true -> valid_binary prec emax g = true ->
  SFcompare f g = Some Lt ->
  float_negative (SFsub prec emax f g) = true.
Proof using Type*.
  intros Hf Hg Hlt.
  destruct f as [sf | sf | | sf mf ef], g as [sg | sg | | sg mg eg];
    cbn [SFcompare] in Hlt; try discriminate;
    try (destruct sf; try discriminate; try reflexivity; destruct sg; try discriminate; reflexivity);
    try (destruct sg; try discriminate; reflexivity).
  cbn [valid_binary] in Hf, Hg. unfold bounded in Hf, Hg.
  apply andb_true_iff in Hf as [Hf _], Hg as [Hg _].
  pose proof (canonical_exponent_min _ _ Hf). pose proof (canonical_exponent_min _ _ Hg).
  cbn [SFsub]. apply binary_normalize_negative; [| lia].
  rewrite !shl_align_value by lia.
  assert (0 < 2 ^ (ef - Z.min ef eg)) by (apply Z.pow_pos_nonneg; lia).
  assert (0 < 2 ^ (eg - Z.min ef eg)) by (apply Z.pow_pos_nonneg; lia).
  destruct sf, sg; cbn [cond_Zopp]; try discriminate; try lia.
  - destruct (Z.compare_spec ef eg) as [-> | Hl | Hl]; try discriminate.
    + rewrite Z.min_id, Z.sub_diag, Z.pow_0_r.
      change (Pos.compare_cont Eq mf mg) with (Pos.compare mf mg) in Hlt.
      destruct (Pos.compare_spec mf mg); try discriminate. lia.
    + rewrite Z.min_r, Z.sub_diag, Z.pow_0_r by lia.
      pose proof (canonical_exponent_lt _ _ _ _ Hg Hf Hl). lia.
  - destruct (Z.compare_spec ef eg) as [-> | Hl | Hl]; try discriminate.
    + rewrite Z.min_id, Z.sub_diag, Z.pow_0_r.
      change (Pos.compare_cont Eq mf mg) with (Pos.compare mf mg) in Hlt.
      destruct (Pos.compare_spec mf mg); try discriminate. lia.
    + rewrite Z.min_l, Z.sub_diag, Z.pow_0_r by lia.
      pose proof (canonical_exponent_lt _ _ _ _ Hf Hg Hl). lia.
Qed.

End Rounding.

(** A float minus itself: positive zero for a finite float, [nan] for an
    infinity and for [nan]. *)
Lemma float_sub_diag f :
  SFsub 53 1024 f f =
    match f with
    | S754_infinity _ | S754_nan => S754_nan
    | _ => S754_zero false
    end.
Proof.
  destruct f as [[] | [] | | s m e]; try reflexivity.
  cbn [SFsub]. rewrite Z.sub_diag. reflexivity.
Qed.

(** A session of one event whose timestamp is the float infinity, which
    is what [json.loads] makes of [1e999]: the duration is [nan], not zero.
    And a last timestamp [2^53] read as a float against a first timestamp
    [2^53 + 1] read as an integer: the last is the smaller one and the
    duration is zero, not negative. *)
Lemma duration_not_zero_not_negative :
  analyze_session_behavior
    [[(k_event_type, PStr (lit "click")); (k_timestamp, PFloat (S754_infinity false))]]
  = Ok (Analysis
          (summary_of [] [[(k_event_type, PStr (lit "click"));
                           (k_timestamp, PFloat (S754_infinity false))]]
             (NFloat S754_nan))) ∧
  analyze_session_behavior
    [[(k_event_type, PStr (lit "click")); (k_timestamp, PInt (2 ^ 53 + 1))];
     [(k_event_type, PStr (lit "click"));
      (k_timestamp, PFloat (S754_finite false 4503599627370496 1))]]
  = Ok (Analysis
          (summary_of []
             [[(k_event_type, PStr (lit "click")); (k_timestamp, PInt (2 ^ 53 + 1))];
              [(k_event_type, PStr (lit "click"));
               (k_timestamp, PFloat (S754_finite false 4503599627370496 1))]]
             (NFloat (S754_zero false)))).
Proof. split; vm_compute; reflexivity. Qed.

(** Two float timestamps out of order, [1700000003.5] then
    [1700000000.123]: the duration is the negative float
    [-3.3770000934600830078125]. *)
Example out_of_order_float_timestamps :
  analyze_session_behavior
    [[(k_event_type, PStr (lit "click"));
      (k_timestamp, PFloat (S754_finite false 7130316814680064 (-22)))];
     [(k_event_type, PStr (lit "click"));
      (k_timestamp, PFloat (S754_finite false 7130316800515899 (-22)))]]
  = Ok (Analysis
          (summary_of []
             [[(k_event_type, PStr (lit "click"));
               (k_timestamp, PFloat (S754_finite false 7130316814680064 (-22)))];
              [(k_event_type, PStr (lit "click"));
               (k_timestamp, PFloat (S754_finite false 7130316800515899 (-22)))]]
             (NFloat (S754_finite true 7604328181268480 (-51))))).
Proof. vm_compute. reflexivity. Qed.

(** C5 (amended). Whenever the analyzer returns a summary, its
    [session_duration] is Python's difference of the timestamp of the last
    event and the timestamp of the first one, with no clamping and no
    reordering: the exact difference of two integers, the rounded
    difference when a float is involved.  For a single event it is the
    integer zero on an integer timestamp, the float zero on a finite float
    one, and [nan] on an infinite or [nan] one.  On two integer timestamps
    it is negative exactly when the last is the smaller one; on two float
    timestamps it is negative when the last is the smaller one. *)
Theorem session_duration_last_minus_first (evs : list pydict) (s : summary) :
  analyze_session_behavior evs = Ok (Analysis s) →
  ∃ e0 en t0 tn,
    head evs = Some e0 ∧ last evs = Some en ∧
    dict_get e0 k_timestamp = Some t0 ∧ dict_get en k_timestamp = Some tn ∧
    python_difference tn t0 = Some (session_duration s) ∧
    (length evs = 1 →
     session_duration s =
       if not_finite t0 then NFloat S754_nan
       else if is_float t0 then NFloat (S754_zero false)
       else NInt 0) ∧
    (∀ i j, int_value tn = Some i → int_value t0 = Some j →
            session_duration s = NInt (i - j) ∧ ((i - j < 0)%Z ↔ (i < j)%Z)) ∧
    (∀ f g, tn = PFloat f → t0 = PFloat g →
            valid_binary 53 1024 f = true → valid_binary 53 1024 g = true →
            SFcompare f g = Some Lt →
            ∃ r, session_duration s = NFloat r ∧ float_negative r = true).
Proof.
  intros Ha.
  apply analyze_ok_inv in Ha as (e0 & evs' & a & b & d & -> & _ & Ha & Hb & Hd & ->).
  exists e0, (List.last (e0 :: evs') e0), b, a.
  split; [done |]. split; [apply last_cons_default |].
  do 3 (split; [done |]). cbn [session_duration summary_of]. split.
  - intros Hlen. destruct evs'; [| done]. cbn [List.last] in Ha.
    rewrite Ha in Hb. injection Hb as ->. revert Hd. unfold python_difference.
    destruct b as [| [] | i | f | | |]; cbn [int_value not_finite is_float];
      try discriminate; rewrite ?Z.sub_diag; try (by intros [= <-]).
    rewrite float_sub_diag. intros [= <-]. by destruct f as [| | |].
  - split.
    + intros i j Hi Hj. unfold python_difference in Hd. rewrite Hi, Hj in Hd.
      injection Hd as <-. split; [done | lia].
    + intros f g -> -> Hf Hg Hlt. injection Hd as <-.
      eexists. split; [done |]. by apply SFsub_negative.
Qed.

Lemma session_duration_witness :
  ∃ e0 en t0 tn,
    head sample_events = Some e0 ∧ last sample_events = Some en ∧
    dict_get e0 k_timestamp = Some t0 ∧ dict_get en k_timestamp = Some tn ∧
    python_difference tn t0 =
      Some (session_duration
              (summary_of (sample_event "page_view" 5 (on_page "product"))
                 sample_events (NInt (3 - 5)))) ∧
    (length sample_events = 1 →
     session_duration (summary_of (sample_event "page_view" 5 (on_page "product"))
                         sample_events (NInt (3 - 5))) =
       if not_finite t0 then NFloat S754_nan
       else if is_float t0 then NFloat (S754_zero false)
       else NInt 0) ∧
    (∀ i j, int_value tn = Some i → int_value t0 = Some j →
            session_duration (summary_of (sample_event "page_view" 5 (on_page "product"))
                                sample_events (NInt (3 - 5))) = NInt (i - j) ∧
            ((i - j < 0)%Z ↔ (i < j)%Z)) ∧
    (∀ f g, tn = PFloat f → t0 = PFloat g →
            valid_binary 53 1024 f = true → valid_binary 53 1024 g = true →
            SFcompare f g = Some Lt →
            ∃ r, session_duration (summary_of (sample_event "page_view" 5
                                                  (on_page "product"))
                                     sample_events (NInt (3 - 5))) = NFloat r ∧
                 float_negative r = true).
Proof.
  apply (session_duration_last_minus_first sample_events). reflexivity.
Defined.

(** C8. Whenever the analyzer returns a summary, its [current_page] is the
    value of [page_type] in the last event when the key is present, and
    the string [unknown] when it is absent. *)
Theorem current_page_of_last_event (evs : list pydict) (s : summary) :
  analyze_session_behavior evs = Ok (Analysis s) →
  ∃ en, last evs = Some en ∧
    match dict_get en k_page_type with
    | Some v => current_page s = v
    | None => current_page s = PStr (lit "unknown")
    end.
Proof.
  intros Ha.
  apply analyze_ok_inv in Ha as (e0 & evs' & a & b & d & -> & _ & _ & _ & _ & ->).
  exists (List.last (e0 :: evs') e0). split; [apply last_cons_default |].
  cbn [current_page summary_of]. unfold dict_get_default.
  by destruct (dict_get _ k_page_type).
Qed.

Lemma current_page_witness :
  ∃ en, last sample_events = Some en ∧
    match dict_get en k_page_type with
    | Some v => current_page (summary_of (sample_event "page_view" 5 (on_page "product"))
                                sample_events (NInt (3 - 5))) = v
    | None => current_page (summary_of (sample_event "page_view" 5 (on_page "product"))
                               sample_events (NInt (3 - 5))) = PStr (lit "unknown")
    end.
Proof.
  apply (current_page_of_last_event sample_events). reflexivity.
Defined.

(** ** The session store under [/track] *)

(** The code points the diagnostic line cannot encode are the surrogates. *)
Lemma unprintable_iff v : unprintable v = true ↔ holds_surrogate v.
Proof.
  unfold holds_surrogate. destruct v as [| | | | s | |]; cbn [unprintable];
    try (split; [done | by intros (? & ? & ? & _)]).
  rewrite existsb_exists. unfold is_surrogate. split.
  - intros (c & Hc & Hs). apply andb_true_iff in Hs as [Hlo Hhi].
    exists s, c. apply N.leb_le in Hlo, Hhi. apply list_elem_of_In in Hc. by repeat split.
  - intros (s' & c & [= <-] & Hc & Hlo & Hhi). exists c.
    apply list_elem_of_In in Hc. split; [done |].
    apply andb_true_iff. by split; apply N.leb_le.
Qed.

(** The line of [local_app.py] is written unless the session identifier or
    the event type holds a surrogate. *)
Lemma local_log_cases v w :
  Local.log [v; w] =
    if unprintable v || unprintable w then Raise UnicodeEncodeError else Ok ().
Proof. unfold Local.log, print_values. cbn [existsb]. by rewrite orb_false_r. Qed.

(** The handler in closed form: the object is recorded before the line is
    written, and the answer is the error of the line when it raises. *)
Lemma track_event_cases log now body st :
  track_event log now body st =
    match body ≫= as_dict with
    | Raise e => (st, TrackError e)
    | Ok d =>
        match py_hash (session_id_of d) with
        | Raise e => (st, TrackError e)
        | Ok k =>
            (<[k := recorded now d (st !! k)]> st,
             match log [session_id_of d; event_type_of d] with
             | Ok _ => TrackSuccess (session_id_of d)
             | Raise e => TrackError e
             end)
        end
    end.
Proof.
  unfold track_event, track_event_try, session_id_of, event_type_of.
  cbv beta iota delta [mbind action_bind mret action_ret pure_stmt result_bind].
  destruct body as [v |]; [| done].
  destruct (as_dict v) as [d |]; [| done].
  destruct (py_hash (dict_get_default d k_session_id PNone)) as [k |]; [| done].
  unfold store_contains, store_setitem, session_append, session_touch.
  destruct (st !! k) as [s |] eqn:Hk.
  - rewrite bool_decide_eq_true_2 by eauto.
    rewrite Hk, lookup_insert_eq. cbn [events created_at recorded].
    rewrite insert_insert_eq. by destruct (log _).
  - rewrite bool_decide_eq_false_2 by (by intros [? ?]).
    rewrite !lookup_insert_eq. cbn [events created_at recorded app].
    rewrite !insert_insert_eq. by destruct (log _).
Qed.

Lemma track_event_recorded log now d k st :
  py_hash (session_id_of d) = Ok k →
  (track_event log now (Ok (PDict d)) st).1 = <[k := recorded now d (st !! k)]> st.
Proof. intros Hk. rewrite track_event_cases. cbn. by rewrite Hk. Qed.

(** A request leaves every session but its own as it was. *)
Lemma track_event_frame log now body st k :
  request_key body ≠ Some k →
  (track_event log now body st).1 !! k = st !! k.
Proof.
  intros Hne. rewrite track_event_cases. unfold request_key in Hne.
  destruct (body ≫= as_dict) as [d |]; [| done].
  destruct (py_hash (session_id_of d)) as [k' |]; [| done].
  cbn. rewrite lookup_insert_ne; [done | congruence].
Qed.

(** A request never reorders or rewrites the events a session holds: the
    old list is a prefix of the new one. *)
Lemma track_event_prefix log now body st k s :
  st !! k = Some s →
  ∃ s', (track_event log now body st).1 !! k = Some s' ∧ events s `prefix_of` events s'
        ∧ created_at s' = created_at s.
Proof.
  intros Hs. destruct (decide (request_key body = Some k)) as [Heq | Hne].
  - rewrite track_event_cases. unfold request_key in Heq.
    destruct (body ≫= as_dict) as [d |]; [| done].
    destruct (py_hash (session_id_of d)) as [k' |]; [| done].
    injection Heq as ->. cbn. rewrite lookup_insert_eq, Hs.
    eexists. split; [done |]. split; [by apply prefix_app_r | done].
  - rewrite track_event_frame by done. by exists s.
Qed.

Lemma run_tracks_snoc log reqs r st :
  run_tracks log (reqs ++ [r]) st = (track_event log r.1 r.2 (run_tracks log reqs st)).1.
Proof. unfold run_tracks. by rewrite fold_left_app. Qed.


(** Over a whole run a session only grows at its end. *)
Lemma run_tracks_prefix (log : list pyval → result unit) reqs st k s :
  st !! k = Some s →
  ∃ s', run_tracks log reqs st !! k = Some s' ∧ events s `prefix_of` events s'
        ∧ created_at s' = created_at s.
Proof.
  revert st s. induction reqs as [| [now body] reqs IH]; intros st s Hs.
  - by exists s.
  - destruct (track_event_prefix log now body st k s Hs) as (s1 & Hs1 & Hpre1 & Hc1).
    destruct (IH _ _ Hs1) as (s2 & Hs2 & Hpre2 & Hc2).
    exists s2. split; [done |]. split; [by etrans | congruence].
Qed.

(** Every session a run leaves in the store holds at least one event. *)
Lemma run_tracks_nonempty log reqs k s :
  run_tracks log reqs ∅ !! k = Some s → events s ≠ [].
Proof.
  revert k s. induction reqs as [| r reqs IH] using rev_ind; intros k s.
  - cbn. by rewrite lookup_empty.
  - rewrite run_tracks_snoc, track_event_cases.
    destruct (r.2 ≫= as_dict) as [d |]; [| apply IH].
    destruct (py_hash (session_id_of d)) as [k' |]; [| apply IH].
    cbn [fst]. destruct (decide (k' = k)) as [-> | Hne].
    + rewrite lookup_insert_eq. intros [= <-].
      destruct (run_tracks log reqs ∅ !! k); cbn; [| done].
      intros Happ. by apply app_eq_nil in Happ as [_ ?].
    + rewrite lookup_insert_ne by done. apply IH.
Qed.

(** C7. Two [/track] requests with the same session key leave the session
    holding what it held before followed by the two events in arrival
    order; a later request with any other key, or one that is rejected,
    leaves that session exactly as it was. *)
Theorem track_accumulates_in_order (log : list pyval → result unit)
    (now1 now2 now3 : nat → Q)
    (d1 d2 : pydict) (body3 : result pyval) (k : pykey) (st : store) :
  py_hash (session_id_of d1) = Ok k →
  py_hash (session_id_of d2) = Ok k →
  request_key body3 ≠ Some k →
  ∃ s1 s2,
    run_tracks log [(now1, Ok (PDict d1))] st !! k = Some s1 ∧
    events s1 = events_of st k ++ [d1] ∧
    run_tracks log [(now1, Ok (PDict d1)); (now2, Ok (PDict d2))] st !! k = Some s2 ∧
    events s2 = events_of st k ++ [d1; d2] ∧
    events s1 `prefix_of` events s2 ∧
    run_tracks log [(now1, Ok (PDict d1)); (now2, Ok (PDict d2)); (now3, body3)] st !! k
      = Some s2.
Proof.
  intros H1 H2 H3. unfold run_tracks, events_of. cbn [fold_left fst snd].
  rewrite (track_event_frame log now3) by done.
  rewrite (track_event_recorded log now2 d2 k) by done.
  rewrite (track_event_recorded log now1 d1 k) by done.
  rewrite !lookup_insert_eq.
  destruct (st !! k) as [s |]; cbn [recorded events from_option];
    eexists _, _; (split; [reflexivity |]); cbn [events];
    (split; [done |]); (split; [reflexivity |]); cbn [events].
  - split; [by rewrite <- app_assoc |]. split; [by exists [d2] | done].
  - split; [done |]. split; [by exists [d2] | done].
Qed.

Lemma track_accumulates_witness :
  ∃ s1 s2,
    run_tracks Local.log [(λ _, 0%Q, Ok (PDict (sample_event "page_view" 5 None)))] ∅
      !! KStr (lit "s1") = Some s1 ∧
    events s1 = events_of ∅ (KStr (lit "s1")) ++ [sample_event "page_view" 5 None] ∧
    run_tracks Local.log
               [(λ _, 0%Q, Ok (PDict (sample_event "page_view" 5 None)));
                (λ _, 1%Q, Ok (PDict (sample_event "click" 6 None)))] ∅
      !! KStr (lit "s1") = Some s2 ∧
    events s2 = events_of ∅ (KStr (lit "s1")) ++
                [sample_event "page_view" 5 None; sample_event "click" 6 None] ∧
    events s1 `prefix_of` events s2 ∧
    run_tracks Local.log
               [(λ _, 0%Q, Ok (PDict (sample_event "page_view" 5 None)));
                (λ _, 1%Q, Ok (PDict (sample_event "click" 6 None)));
                (λ _, 2%Q, Ok (PDict [(k_session_id, PStr (lit "s2"))]))] ∅
      !! KStr (lit "s1") = Some s2.
Proof.
  apply (track_accumulates_in_order Local.log (λ _, 0%Q) (λ _, 1%Q) (λ _, 2%Q)
           (sample_event "page_view" 5 None) (sample_event "click" 6 None)
           (Ok (PDict [(k_session_id, PStr (lit "s2"))])) (KStr (lit "s1")) ∅).
  - reflexivity.
  - reflexivity.
  - vm_compute. discriminate.
Defined.

(** A body that parses as JSON but is not an object, or whose [session_id]
    is a list, gets the error response in either variant, and nothing is
    stored. *)
Lemma track_rejects_parsed_bodies :
  track_event Local.log (λ _, 0%Q) (Ok (PList [])) ∅ = (∅, TrackError AttributeError) ∧
  track_event Modal.log (λ _, 0%Q) (Ok (PList [])) ∅ = (∅, TrackError AttributeError) ∧
  track_event Local.log (λ _, 0%Q) (Ok (PDict [(k_session_id, PList [])])) ∅
    = (∅, TrackError TypeError) ∧
  track_event Modal.log (λ _, 0%Q) (Ok (PDict [(k_session_id, PList [])])) ∅
    = (∅, TrackError TypeError).
Proof. repeat split; reflexivity. Qed.

(** An object whose [session_id] holds the surrogate U+D800: both variants
    store it; [modal_app.py] answers with success, [local_app.py] fails to
    write its line and answers with the error. *)
Example track_surrogate_session_id :
  track_event Local.log (λ _, 0%Q) (Ok (PDict [(k_session_id, PStr [55296%N])])) ∅
    = ({[ KStr [55296%N] := mk_session [[(k_session_id, PStr [55296%N])]] 0 0 ]},
       TrackError UnicodeEncodeError) ∧
  track_event Modal.log (λ _, 0%Q) (Ok (PDict [(k_session_id, PStr [55296%N])])) ∅
    = ({[ KStr [55296%N] := mk_session [[(k_session_id, PStr [55296%N])]] 0 0 ]},
       TrackSuccess (PStr [55296%N])).
Proof. split; reflexivity. Qed.

(** What both variants do with an object whose [session_id] hashes to the
    key [k]. *)
Lemma track_recorded_outcome now d k st :
  py_hash (session_id_of d) = Ok k →
  (track_event Modal.log now (Ok (PDict d)) st).2 = TrackSuccess (session_id_of d) ∧
  (¬ holds_surrogate (session_id_of d) → ¬ holds_surrogate (event_type_of d) →
   (track_event Local.log now (Ok (PDict d)) st).2 = TrackSuccess (session_id_of d)) ∧
  (holds_surrogate (session_id_of d) ∨ holds_surrogate (event_type_of d) →
   (track_event Local.log now (Ok (PDict d)) st).2 = TrackError UnicodeEncodeError) ∧
  (track_event Local.log now (Ok (PDict d)) st).1
    = (track_event Modal.log now (Ok (PDict d)) st).1 ∧
  (∃ s, (track_event Modal.log now (Ok (PDict d)) st).1 !! k = Some s ∧
        events s = events_of st k ++ [d]) ∧
  (dict_get d k_session_id = None → k = KNone ∧ session_id_of d = PNone) ∧
  (∀ s, session_id_of d = PStr s → k = KStr s).
Proof.
  intros Hk. rewrite !track_event_cases. cbn [mbind result_bind as_dict].
  rewrite Hk. cbn [fst snd]. rewrite local_log_cases.
  split; [done |]. split; [| split; [| split; [done | split; [| split]]]].
  - intros Hs Ht. rewrite <- unprintable_iff in Hs, Ht.
    by destruct (unprintable (session_id_of d)), (unprintable (event_type_of d)).
  - rewrite <- !unprintable_iff.
    intros [-> | ->]; [done | by rewrite orb_true_r].
  - rewrite lookup_insert_eq. eexists. split; [done |].
    unfold events_of. by destruct (st !! k).
  - intros Hnone. unfold session_id_of, dict_get_default in *.
    rewrite Hnone in *. cbn [py_hash] in Hk. by injection Hk as <-.
  - intros s Hs. rewrite Hs in Hk. by injection Hk as <-.
Qed.

(** C10 (amended). The outcome of [/track] by cases on the body, in both
    variants unless said otherwise: a body that does not parse gets the
    error response; so does a parsed value that is not an object, and an
    object whose [session_id] is a list or an object; nothing is stored
    then.  Every other object has a key and is recorded as the last event of
    the session under it: the null key when the object has no [session_id],
    the string itself when the [session_id] is a string.  [modal_app.py]
    answers with success and the [session_id]; [local_app.py] does the same
    unless the [session_id] or the [event_type] is a string that holds a
    surrogate, and answers with the error response then, with the event
    recorded all the same. *)
Theorem track_event_outcome (now : nat → Q) (body : result pyval) (st : store) :
  match body with
  | Raise e =>
      track_event Local.log now body st = (st, TrackError e) ∧
      track_event Modal.log now body st = (st, TrackError e)
  | Ok (PDict d) =>
      match session_id_of d with
      | PList _ | PDict _ =>
          track_event Local.log now body st = (st, TrackError TypeError) ∧
          track_event Modal.log now body st = (st, TrackError TypeError)
      | _ =>
          ∃ k,
            (track_event Modal.log now body st).2 = TrackSuccess (session_id_of d) ∧
            (¬ holds_surrogate (session_id_of d) →
             ¬ holds_surrogate (event_type_of d) →
             (track_event Local.log now body st).2 = TrackSuccess (session_id_of d)) ∧
            (holds_surrogate (session_id_of d) ∨ holds_surrogate (event_type_of d) →
             (track_event Local.log now body st).2 = TrackError UnicodeEncodeError) ∧
            (track_event Local.log now body st).1
              = (track_event Modal.log now body st).1 ∧
            (∃ s, (track_event Modal.log now body st).1 !! k = Some s ∧
                  events s = events_of st k ++ [d]) ∧
            (dict_get d k_session_id = None → k = KNone ∧ session_id_of d = PNone) ∧
            (∀ s, session_id_of d = PStr s → k = KStr s)
      end
  | Ok _ =>
      track_event Local.log now body st = (st, TrackError AttributeError) ∧
      track_event Modal.log now body st = (st, TrackError AttributeError)
  end.
Proof.
  destruct body as [[| b | z | f | s | l | d] | e]; try (split; reflexivity).
  pose proof (track_recorded_outcome now d) as Hrec.
  assert (∀ e, py_hash (session_id_of d) = Raise e →
            track_event Local.log now (Ok (PDict d)) st = (st, TrackError e) ∧
            track_event Modal.log now (Ok (PDict d)) st = (st, TrackError e)) as Hrej.
  { intros e He. rewrite !track_event_cases. cbn [mbind result_bind as_dict].
    by rewrite He. }
  destruct (session_id_of d) as [| b | z | f | s | l | d'] eqn:Hsid;
    try (by apply Hrej); eexists; by apply Hrec.
Qed.

(** ** The decision engine *)

Lemma local_falls_back env a :
  no_reply env a → Local.get_ai_decision env a = get_fallback_decision a.
Proof.
  unfold Local.get_ai_decision.
  destruct (key_missing (openai_api_key env)) eqn:Hkey; [done |].
  intros [Hk | e He | He | rest He].
  - by rewrite Hk in Hkey.
  - by rewrite He.
  - by rewrite He.
  - by rewrite He.
Qed.

(** The two variants return the same decision: the client of
    [modal_app.py] raises where [local_app.py] tests the credential. *)
Lemma modal_as_local env a :
  Modal.get_ai_decision env a = Local.get_ai_decision env a.
Proof.
  unfold Modal.get_ai_decision, Local.get_ai_decision, Modal.make_client.
  by destruct (key_missing (openai_api_key env)).
Qed.

Lemma modal_falls_back env a :
  no_reply env a → Modal.get_ai_decision env a = get_fallback_decision a.
Proof. rewrite modal_as_local. apply local_falls_back. Qed.

Lemma decision_of_text_some t :
  decision_of_text (Some t) =
    Ok (if str_contains show_marker t then
          mk_response true
            (Some (from_option group1 msg_special_offer
                     (re_search (field_pattern (lit "message")) t)))
            (Some (from_option group1 (lit "discount")
                     (re_search (field_pattern (lit "trigger_type")) t)))
        else no_message).
Proof.
  unfold decision_of_text, marker_in. result_simpl.
  by destruct (str_contains show_marker t).
Qed.

(** Both variants in closed form: the fallback unless a reply text is read. *)
Lemma local_decision_cases env a :
  Local.get_ai_decision env a =
    if key_missing (openai_api_key env) then get_fallback_decision a
    else match reply_text env a with
         | Some t => try_except (decision_of_text (Some t)) (λ _, get_fallback_decision a)
         | None => get_fallback_decision a
         end.
Proof.
  unfold Local.get_ai_decision, reply_text.
  destruct (key_missing (openai_api_key env)); [done |].
  by destruct (chat_completion env a) as [[| [t |] rest] | e].
Qed.


(** C3. When the credential is unset, the call to the service raises, or
    the reply carries no text, both variants of the engine return the
    fallback decision of the same analysis; the engine is a total function,
    so no exception reaches its caller. *)
Theorem engine_falls_back (env : environment) (a : analysis) :
  no_reply env a →
  Local.get_ai_decision env a = get_fallback_decision a ∧
  Modal.get_ai_decision env a = get_fallback_decision a.
Proof. intros H. split; [by apply local_falls_back | by apply modal_falls_back]. Qed.

Lemma engine_falls_back_witness :
  Local.get_ai_decision env_failing (Analysis (summary_of [] sample_events (NInt 0)))
    = show_urgency ∧
  Modal.get_ai_decision env_failing (Analysis (summary_of [] sample_events (NInt 0)))
    = show_urgency.
Proof.
  apply (engine_falls_back env_failing
           (Analysis (summary_of [] sample_events (NInt 0)))).
  by apply (call_raises _ _ ServiceError).
Defined.

(** ** Empty sessions *)



Lemma starts_with_spec p s : starts_with p s = true ↔ ∃ post, s = p ++ post.
Proof.
  revert s. induction p as [| c p IH]; intros s; cbn [starts_with].
  - split; [by exists s | done].
  - destruct s as [| c' s]; [split; [done | by intros [? ?]] |].
    rewrite andb_true_iff, bool_decide_eq_true, IH. split.
    + intros [-> [post ->]]. by exists post.
    + intros [post [= -> ->]]. split; [done | by exists post].
Qed.





(** ** POST /analyze *)

Lemma response_eta r :
  mk_response (should_show_message r) (message r) (trigger_type r) = r.
Proof. by destruct r. Qed.

(** The handler in closed form. *)
Lemma analyze_session_cases log get_ai env body st :
  analyze_session log get_ai env body st =
    match body ≫= as_dict with
    | Raise _ => analyze_fallback
    | Ok d =>
        match py_hash (session_id_of d) with
        | Raise _ => analyze_fallback
        | Ok k =>
            match st !! k with
            | None => session_not_found
            | Some sess =>
                match log [session_id_of d] with
                | Raise _ => analyze_fallback
                | Ok _ =>
                    match analyze_session_behavior (events sess) with
                    | Raise _ => analyze_fallback
                    | Ok a => AnalyzeDecision (get_ai env a)
                    end
                end
            end
        end
    end.
Proof.
  unfold analyze_session, analyze_session_try, session_id_of.
  destruct body as [v |]; [| done]. result_simpl.
  destruct (as_dict v) as [d |]; [| done].
  destruct (py_hash (dict_get_default d k_session_id PNone)) as [k |]; [| done].
  destruct (st !! k) as [sess |]; [| done].
  destruct (log _) as [u |]; [| done].
  destruct (analyze_session_behavior (events sess)) as [a |]; [| done].
  cbn [try_except]. by rewrite response_eta.
Qed.

(** The stored empty object makes the analyzer raise; the handler answers
    with its fixed decision. *)
Example analyze_absorbs_analyzer_error :
  analyze_session Local.log Local.get_ai_decision env_failing (Ok (PDict []))
    (run_tracks Local.log [(λ _, 0%Q, Ok (PDict []))] ∅) = analyze_fallback.
Proof. reflexivity. Qed.



(** ** Reading the reply *)

(** A run of literal characters matches exactly when the text starts with
    them. *)
Lemma match_here_literals l p groups s :
  match_here ((Lit <$> l) ++ p) groups s =
    if starts_with l s then match_here p groups (drop (length l) s) else None.
Proof.
  revert s. induction l as [| c l IH]; intros s; [done |].
  cbn [fmap list_fmap app match_here starts_with length].
  destruct s as [| c' s]; [done |]. cbn [drop].
  destruct (N.eqb_spec c c') as [-> | Hne].
  - rewrite bool_decide_eq_true_2 by done. apply IH.
  - by rewrite bool_decide_eq_false_2 by done.
Qed.

(** Greedy repetition in front of a continuation that rejects every text
    opening with a character of the class: the result is that of the
    continuation after some run of the class. *)
Lemma star_then_spec {R} cls (k : pystr → option R) s r :
  (∀ c s', cls c = true → k (c :: s') = None) →
  star_then cls k s = Some r ↔
  ∃ ws s', s = ws ++ s' ∧ Forall (λ c, cls c = true) ws ∧ k s' = Some r.
Proof.
  intros Hk. revert r. induction s as [| c s IH]; intros r; cbn [star_then].
  - split.
    + intros Hr. by exists [], [].
    + intros (ws & s' & Hs & _ & Hr). symmetry in Hs.
      by apply app_eq_nil in Hs as [-> ->].
  - destruct (cls c) eqn:Hc.
    + destruct (star_then cls k s) as [r' |].
      * split.
        -- intros [= ->]. destruct (proj1 (IH r) eq_refl) as (ws & s' & -> & Hws & Hr).
           exists (c :: ws), s'. by repeat split; [constructor |].
        -- intros ([| c' ws] & s' & Hs & Hws & Hr).
           ++ cbn in Hs. subst s'. by rewrite Hk in Hr.
           ++ injection Hs as <- ->. inversion Hws; subst.
              apply IH. by exists ws, s'.
      * rewrite Hk by done. split; [done |].
        intros ([| c' ws] & s' & Hs & Hws & Hr).
        -- cbn in Hs. subst s'. by rewrite Hk in Hr.
        -- injection Hs as <- ->. inversion Hws; subst.
           apply IH. by exists ws, s'.
    + split.
      * intros Hr. by exists [], (c :: s).
      * intros ([| c' ws] & s' & Hs & Hws & Hr).
        -- cbn in Hs. by subst s'.
        -- injection Hs as <- ->. inversion Hws; subst. congruence.
Qed.

Lemma star_capture_spec {R} cls (k : pystr → pystr → option R) acc s r :
  (∀ cap c s', cls c = true → k cap (c :: s') = None) →
  star_capture cls k acc s = Some r ↔
  ∃ run s', s = run ++ s' ∧ Forall (λ c, cls c = true) run ∧
            k (acc ++ run) s' = Some r.
Proof.
  intros Hk. revert acc r.
  induction s as [| c s IH]; intros acc r; cbn [star_capture].
  - split.
    + intros Hr. exists [], []. by rewrite (app_nil_r acc).
    + intros (run & s' & Hs & _ & Hr). symmetry in Hs.
      apply app_eq_nil in Hs as [-> ->]. by rewrite (app_nil_r acc) in Hr.
  - destruct (cls c) eqn:Hc.
    + specialize (IH (acc ++ [c])).
      destruct (star_capture cls k (acc ++ [c]) s) as [r' |].
      * split.
        -- intros [= ->].
           destruct (proj1 (IH r) eq_refl) as (run & s' & -> & Hrun & Hr).
           exists (c :: run), s'. rewrite <- app_assoc in Hr.
           by repeat split; [constructor |].
        -- intros ([| c' run] & s' & Hs & Hrun & Hr).
           ++ cbn in Hs. subst s'. by rewrite Hk in Hr.
           ++ injection Hs as <- ->. inversion Hrun; subst.
              apply IH. exists run, s'. by rewrite <- app_assoc.
      * rewrite Hk by done. split; [done |].
        intros ([| c' run] & s' & Hs & Hrun & Hr).
        -- cbn in Hs. subst s'. by rewrite Hk in Hr.
        -- injection Hs as <- ->. inversion Hrun; subst.
           apply IH. exists run, s'. by rewrite <- app_assoc.
    + split.
      * intros Hr. exists [], (c :: s). by rewrite (app_nil_r acc).
      * intros ([| c' run] & s' & Hs & Hrun & Hr).
        -- cbn in Hs. subst s'. by rewrite (app_nil_r acc) in Hr.
        -- injection Hs as <- ->. inversion Hrun; subst. congruence.
Qed.

Lemma plus_capture_spec {R} cls (k : pystr → pystr → option R) s r :
  (∀ cap c s', cls c = true → k cap (c :: s') = None) →
  plus_capture cls k s = Some r ↔
  ∃ run s', s = run ++ s' ∧ run ≠ [] ∧ Forall (λ c, cls c = true) run ∧
            k run s' = Some r.
Proof.
  intros Hk. unfold plus_capture. destruct s as [| c s].
  - split; [done |]. intros (run & s' & Hs & Hne & _). symmetry in Hs.
    by apply app_eq_nil in Hs as [-> _].
  - destruct (cls c) eqn:Hc.
    + rewrite star_capture_spec by done. split.
      * intros (run & s' & -> & Hrun & Hr). exists (c :: run), s'.
        by repeat split; [| constructor |].
      * intros ([| c' run] & s' & Hs & Hne & Hrun & Hr); [done |].
        injection Hs as <- ->. inversion Hrun; subst. by exists run, s'.
    + split; [done |].
      intros ([| c' run] & s' & Hs & Hne & Hrun & Hr); [done |].
      injection Hs as <- ->. inversion Hrun; subst. congruence.
Qed.

Lemma match_here_quote p groups s r :
  match_here (Lit dquote :: p) groups s = Some r ↔
  ∃ s', s = dquote :: s' ∧ match_here p groups s' = Some r.
Proof.
  cbn [match_here]. destruct s as [| c s]; [split; [done | by intros (? & ? & _)] |].
  destruct (N.eqb_spec dquote c) as [<- | Hne].
  - split; [by exists s | by intros (s' & [= <-] & ?)].
  - split; [done | intros (s' & [= -> _] & _); done].
Qed.

Lemma space_not_quote c : is_space c = true → (dquote =? c)%N = false.
Proof. intros Hc. destruct (N.eqb_spec dquote c) as [<- | ?]; [done | done]. Qed.

Lemma not_dquote_iff c : not_dquote c = true ↔ c ≠ dquote.
Proof.
  unfold not_dquote. rewrite negb_true_iff.
  destruct (N.eqb_spec c dquote); split; congruence.
Qed.

(** The pattern of a field matches at the start of a text exactly when the
    field stands there, and the group is its value. *)
Lemma match_field_at name s r :
  match_here (field_pattern name) [] s = Some r ↔
  ∃ cap, r = [cap] ∧ field_at name cap s.
Proof.
  unfold field_pattern, field_at. rewrite match_here_literals.
  change (dquote :: name ++ [dquote; 58%N]) with (field_head name).
  destruct (starts_with (field_head name) s) eqn:Hhead.
  - apply starts_with_spec in Hhead as [post ->].
    rewrite drop_app_length. cbn [match_here].
    rewrite star_then_spec; cycle 1.
    { intros c s' Hc. by rewrite (space_not_quote c). }
    split.
    + intros (ws & s' & -> & Hws & Hk).
      apply (match_here_quote [GroupPlus not_dquote; Lit dquote]) in Hk
        as (s'' & -> & Hk).
      cbn [match_here] in Hk. apply plus_capture_spec in Hk; cycle 1.
      { intros cap c s3 Hc. apply not_dquote_iff in Hc.
        destruct (N.eqb_spec dquote c); [by subst | done]. }
      destruct Hk as (run & s3 & -> & Hne & Hrun & Hk).
      destruct s3 as [| c s3]; [done |].
      destruct (N.eqb_spec dquote c) as [<- | ?]; [| done].
      injection Hk as <-. exists run. split; [done |].
      exists ws, s3. repeat split; [done | done |].
      eapply Forall_impl; [done |]. intros c. apply not_dquote_iff.
    + intros (cap & -> & ws & rest & Hs & Hws & Hne & Hcap).
      apply app_inv_head in Hs as ->.
      exists ws, ([dquote] ++ cap ++ [dquote] ++ rest). split; [done |].
      split; [done |].
      apply (match_here_quote [GroupPlus not_dquote; Lit dquote]).
      exists (cap ++ [dquote] ++ rest). split; [done |].
      cbn [match_here]. apply plus_capture_spec.
      { intros cap' c s3 Hc. apply not_dquote_iff in Hc.
        destruct (N.eqb_spec dquote c); [by subst | done]. }
      exists cap, ([dquote] ++ rest). repeat split; [done |].
      eapply Forall_impl; [done |]. intros c. apply not_dquote_iff.
  - split; [done |].
    intros (cap & _ & ws & rest & -> & _).
    assert (starts_with (field_head name)
              (field_head name ++ ws ++ [dquote] ++ cap ++ [dquote] ++ rest) = true)
      as Hs by (apply starts_with_spec; by eexists).
    congruence.
Qed.

(** [re.search] returns the match at the leftmost offset that has one. *)
Lemma re_search_some p s r :
  re_search p s = Some r ↔
  ∃ pre s', s = pre ++ s' ∧ match_here p [] s' = Some r ∧
            ∀ pre' s'', s = pre' ++ s'' → length pre' < length pre →
                        match_here p [] s'' = None.
Proof.
  revert r. induction s as [| c s IH]; intros r; cbn [re_search].
  - destruct (match_here p [] []) as [r' |] eqn:Hm.
    + split.
      * intros [= ->]. exists [], []. repeat split; [done |].
        intros pre' s'' _ Hlen. cbn in Hlen. lia.
      * intros (pre & s' & Hs & Hr & _). symmetry in Hs.
        apply app_eq_nil in Hs as [-> ->]. congruence.
    + split; [done |]. intros (pre & s' & Hs & Hr & _). symmetry in Hs.
      apply app_eq_nil in Hs as [-> ->]. congruence.
  - destruct (match_here p [] (c :: s)) as [r' |] eqn:Hm.
    + split.
      * intros [= ->]. exists [], (c :: s). repeat split; [done |].
        intros pre' s'' _ Hlen. cbn in Hlen. lia.
      * intros ([| c' pre] & s' & Hs & Hr & Hleft).
        -- cbn in Hs. subst s'. congruence.
        -- specialize (Hleft [] (c :: s) eq_refl). cbn in Hleft.
           rewrite Hleft in Hm by lia. done.
    + rewrite IH. split.
      * intros (pre & s' & -> & Hr & Hleft). exists (c :: pre), s'.
        repeat split; [done |].
        intros [| c' pre'] s'' Hs Hlen.
        -- cbn in Hs. by subst s''.
        -- injection Hs as <- Hs. apply (Hleft pre' s'' Hs). cbn in Hlen. lia.
      * intros ([| c' pre] & s' & Hs & Hr & Hleft).
        -- cbn in Hs. subst s'. congruence.
        -- injection Hs as <- ->. exists pre, s'. repeat split; [done |].
           intros pre' s'' Hs Hlen. apply (Hleft (c :: pre') s'').
           ++ by rewrite Hs.
           ++ cbn. lia.
Qed.

Lemma re_search_none p s :
  re_search p s = None ↔ ∀ pre s', s = pre ++ s' → match_here p [] s' = None.
Proof.
  induction s as [| c s IH]; cbn [re_search].
  - destruct (match_here p [] []) as [r' |] eqn:Hm.
    + split; [done |]. intros Hall. specialize (Hall [] [] eq_refl). congruence.
    + split; [| done]. intros _ pre s' Hs. symmetry in Hs.
      by apply app_eq_nil in Hs as [-> ->].
  - destruct (match_here p [] (c :: s)) as [r' |] eqn:Hm.
    + split; [done |]. intros Hall. specialize (Hall [] (c :: s) eq_refl). congruence.
    + rewrite IH. split.
      * intros Hall [| c' pre] s' Hs.
        -- cbn in Hs. by subst s'.
        -- injection Hs as <- Hs. by apply (Hall pre).
      * intros Hall pre s' Hs. apply (Hall (c :: pre)). by rewrite Hs.
Qed.

Lemma match_field_none name s :
  match_here (field_pattern name) [] s = None ↔ ∀ cap, ¬ field_at name cap s.
Proof.
  split.
  - intros Hm cap Hat.
    assert (match_here (field_pattern name) [] s = Some [cap]) as Heq
      by (apply match_field_at; by exists cap).
    congruence.
  - intros Hno. destruct (match_here (field_pattern name) [] s) as [r |] eqn:Hm; [| done].
    apply match_field_at in Hm as (cap & _ & Hat). by destruct (Hno cap).
Qed.

Lemma search_first_field name text cap :
  re_search (field_pattern name) text = Some [cap] ↔ first_field name text cap.
Proof.
  rewrite re_search_some. unfold first_field. split.
  - intros (pre & s & -> & Hm & Hleft). exists pre, s. split; [done |].
    apply match_field_at in Hm as (cap' & [= <-] & Hat). split; [done |].
    intros pre' s' cap' Hs Hlen. by apply match_field_none, (Hleft pre').
  - intros (pre & s & -> & Hat & Hleft). exists pre, s. split; [done |].
    split; [apply match_field_at; by exists cap |].
    intros pre' s' Hs Hlen. apply match_field_none. intros cap'.
    by apply (Hleft pre').
Qed.

Lemma search_no_field name text :
  re_search (field_pattern name) text = None ↔ no_field name text.
Proof.
  rewrite re_search_none. unfold no_field. split.
  - intros Hall pre s cap Hs. by apply match_field_none, (Hall pre).
  - intros Hno pre s Hs. apply match_field_none. intros cap. by apply (Hno pre).
Qed.

(** What the engine extracts for a field is its value in the sense above. *)
Lemma extracted_field_value name default text :
  field_value name default text
    (from_option group1 default (re_search (field_pattern name) text)).
Proof.
  unfold field_value.
  destruct (re_search (field_pattern name) text) as [r |] eqn:Hs.
  - left. pose proof Hs as Hs'.
    apply re_search_some in Hs' as (pre & s & _ & Hm & _).
    apply match_field_at in Hm as (cap & -> & _). by apply search_first_field.
  - right. split; [by apply search_no_field | done].
Qed.

(** The value of a field is unique. *)
Lemma field_value_functional name default text v1 v2 :
  field_value name default text v1 → field_value name default text v2 → v1 = v2.
Proof.
  unfold field_value.
  rewrite <- !search_first_field, <- !search_no_field.
  intros [H1 | [H1 ->]] [H2 | [H2 ->]]; congruence.
Qed.

Example sample_reply_decision :
  Local.get_ai_decision env_replying EmptyAnalysis
    = mk_response true (Some (lit "Hi there")) (Some (lit "discount")).
Proof. reflexivity. Qed.



(** ** End to end *)

(** A product page view, a click and a cart addition are tracked; with no
    credential set, the analysis of the session shows the urgency message. *)
Example cart_path_end_to_end :
  analyze_session Local.log Local.get_ai_decision (mk_env None (λ _, Raise ServiceError))
    (Ok (PDict [(k_session_id, PStr (lit "s1"))]))
    (run_tracks Local.log
       [(λ _, 0%Q, Ok (PDict (sample_event "page_view" 1 (on_page "product"))));
        (λ _, 1%Q, Ok (PDict (sample_event "click" 2 None)));
        (λ _, 2%Q, Ok (PDict (sample_event "add_to_cart" 3 (on_page "product"))))] ∅)
  = AnalyzeDecision show_urgency.
Proof. reflexivity. Qed.

(** * Further properties of the analyzer *)

Lemma filter_exclusive_length {A} (f g : A → bool) l :
  (∀ x, f x = true → g x = false) →
  length (List.filter f l) + length (List.filter g l) ≤ length l.
Proof.
  intros Hfg. induction l as [| x l IH]; [done |].
  rewrite !filter_length_cons. cbn [length].
  destruct (f x) eqn:Hf; [rewrite (Hfg x Hf) | destruct (g x)]; cbn [Nat.b2n]; lia.
Qed.

Lemma filter_length_le {A} (f : A → bool) l : length (List.filter f l) ≤ length l.
Proof.
  induction l as [| x l IH]; [done |].
  rewrite filter_length_cons. cbn [length]. destruct (f x); cbn [Nat.b2n]; lia.
Qed.

Lemma page_product_not_cart e :
  get_eq_str e k_page_type (lit "product") = true →
  get_eq_str e k_page_type (lit "cart") = false.
Proof.
  unfold get_eq_str. destruct (dict_get e k_page_type) as [[| | | | p | |] |]; try done.
  cbn [py_eq_str]. intros Hp. apply bool_decide_eq_true in Hp as ->. reflexivity.
Qed.

(** The product and cart page views are disjoint parts of the page views,
    and the three typed buckets together never exceed the number of events. *)
Theorem summary_counts_bounded (evs : list pydict) (s : summary) :
  analyze_session_behavior evs = Ok (Analysis s) →
  product_page_views s + cart_page_views s ≤ page_views s ∧
  page_views s + clicks s + cart_actions s ≤ total_events s.
Proof.
  intros Ha. apply analyze_ok_inv in Ha as (e0 & evs' & a & b & d & -> & _ & _ & _ & _ & ->).
  cbn [product_page_views cart_page_views page_views clicks cart_actions
       total_events summary_of]. split.
  - apply filter_exclusive_length, page_product_not_cart.
  - pose proof (buckets_partition (e0 :: evs')). lia.
Qed.

Lemma summary_counts_bounded_witness :
  product_page_views (summary_of (sample_event "page_view" 5 (on_page "product"))
                        sample_events (NInt (3 - 5)))
  + cart_page_views (summary_of (sample_event "page_view" 5 (on_page "product"))
                       sample_events (NInt (3 - 5)))
  ≤ page_views (summary_of (sample_event "page_view" 5 (on_page "product"))
                  sample_events (NInt (3 - 5))) ∧
  page_views (summary_of (sample_event "page_view" 5 (on_page "product"))
                sample_events (NInt (3 - 5)))
  + clicks (summary_of (sample_event "page_view" 5 (on_page "product"))
              sample_events (NInt (3 - 5)))
  + cart_actions (summary_of (sample_event "page_view" 5 (on_page "product"))
                    sample_events (NInt (3 - 5)))
  ≤ total_events (summary_of (sample_event "page_view" 5 (on_page "product"))
                    sample_events (NInt (3 - 5))).
Proof.
  apply (summary_counts_bounded sample_events). reflexivity.
Defined.

(** The summary keeps the last five events in their order, or all of them
    when there are fewer: what it keeps is the end of the input. *)
Theorem events_tail_is_suffix (evs : list pydict) (s : summary) :
  analyze_session_behavior evs = Ok (Analysis s) →
  ∃ older, evs = older ++ events_tail s ∧
           length (events_tail s) = Nat.min 5 (length evs).
Proof.
  intros Ha. apply analyze_ok_inv in Ha as (e0 & evs' & a & b & d & -> & _ & _ & _ & _ & ->).
  cbn [events_tail summary_of]. unfold last_five.
  exists (take (length (e0 :: evs') - 5) (e0 :: evs')).
  split; [by rewrite take_drop |]. rewrite length_drop. lia.
Qed.

Lemma events_tail_is_suffix_witness :
  ∃ older,
    sample_events = older ++ events_tail
      (summary_of (sample_event "page_view" 5 (on_page "product")) sample_events (NInt (3 - 5))) ∧
    length (events_tail
      (summary_of (sample_event "page_view" 5 (on_page "product")) sample_events (NInt (3 - 5))))
    = Nat.min 5 (length sample_events).
Proof.
  apply (events_tail_is_suffix sample_events). reflexivity.
Defined.

Lemma filter_nonempty_iff {A} (f : A → bool) (l : list A) :
  negb (Nat.eqb (length (List.filter f l)) 0) = true ↔ ∃ x, x ∈ l ∧ f x = true.
Proof.
  induction l as [| x l IH].
  - split; [done |]. intros (x & Hx & _). by apply elem_of_nil in Hx.
  - cbn [List.filter]. destruct (f x) eqn:Hf.
    + split; [| done]. intros _. exists x. split; [left | done].
    + rewrite IH. split.
      * intros (y & Hy & Hfy). exists y. split; [by right | done].
      * intros (y & Hy & Hfy). apply elem_of_cons in Hy as [-> | Hy]; [congruence |].
        by exists y.
Qed.

(** The cart flag of the summary is set exactly when some event of the
    session has the type [add_to_cart]. *)
Theorem has_cart_items_iff (evs : list pydict) (s : summary) :
  analyze_session_behavior evs = Ok (Analysis s) →
  has_cart_items s = true ↔
  ∃ e, e ∈ evs ∧ has_type (lit "add_to_cart") e = true.
Proof.
  intros Ha. apply analyze_ok_inv in Ha as (e0 & evs' & a & b & d & -> & _ & _ & _ & _ & ->).
  cbn [has_cart_items summary_of]. apply filter_nonempty_iff.
Qed.

Lemma has_cart_items_iff_witness :
  has_cart_items (summary_of (sample_event "page_view" 5 (on_page "product"))
                    sample_events (NInt (3 - 5))) = true ↔
  ∃ e, e ∈ sample_events ∧ has_type (lit "add_to_cart") e = true.
Proof.
  apply (has_cart_items_iff sample_events). reflexivity.
Defined.

Lemma filter_all {A} (f g : A → bool) (l : list A) :
  (∀ x, x ∈ l → f x = true → g x = true) →
  List.filter g (List.filter f l) = List.filter f l.
Proof.
  induction l as [| x l IH]; intros Hfg; [done |].
  cbn [List.filter]. destruct (f x) eqn:Hf.
  - cbn [List.filter]. rewrite (Hfg x) by (done || left).
    f_equal. apply IH. intros y Hy. apply Hfg. by right.
  - apply IH. intros y Hy. apply Hfg. by right.
Qed.

Lemma filter_none {A} (f g : A → bool) (l : list A) :
  (∀ x, x ∈ l → f x = true → g x = false) →
  List.filter g (List.filter f l) = [].
Proof.
  induction l as [| x l IH]; intros Hfg; [done |].
  cbn [List.filter]. destruct (f x) eqn:Hf.
  - cbn [List.filter]. rewrite (Hfg x) by (done || left).
    apply IH. intros y Hy. apply Hfg. by right.
  - apply IH. intros y Hy. apply Hfg. by right.
Qed.

(** When every page view of the session is a product page, the summary
    counts all page views as product views and none as cart views. *)
Theorem uniform_product_views (evs : list pydict) (s : summary) :
  analyze_session_behavior evs = Ok (Analysis s) →
  (∀ e, e ∈ evs → has_type (lit "page_view") e = true →
        get_eq_str e k_page_type (lit "product") = true) →
  product_page_views s = page_views s ∧ cart_page_views s = 0.
Proof.
  intros Ha Hall.
  apply analyze_ok_inv in Ha as (e0 & evs' & a & b & d & -> & _ & _ & _ & _ & ->).
  cbn [product_page_views cart_page_views page_views summary_of].
  unfold filter_by_page. split.
  - by rewrite filter_all.
  - rewrite filter_none; [done |].
    intros e He Hv. by apply page_product_not_cart, Hall.
Qed.

Lemma uniform_product_views_witness :
  product_page_views (summary_of (sample_event "page_view" 5 (on_page "product"))
                        sample_events (NInt (3 - 5)))
  = page_views (summary_of (sample_event "page_view" 5 (on_page "product"))
                  sample_events (NInt (3 - 5))) ∧
  cart_page_views (summary_of (sample_event "page_view" 5 (on_page "product"))
                     sample_events (NInt (3 - 5))) = 0.
Proof.
  apply (uniform_product_views sample_events); [reflexivity |].
  intros e He Hv. unfold sample_events in He.
  repeat (apply elem_of_cons in He as [-> | He]); try reflexivity; try discriminate.
  by apply elem_of_nil in He.
Defined.



(** * Further properties of the session store *)

Lemma events_of_track log now body st k :
  events_of (track_event log now body st).1 k =
    events_of st k ++ recorded_under k [(now, body)].
Proof.
  unfold recorded_under, events_of. cbn [omap list_omap snd].
  destruct (decide (request_key body = Some k)) as [Heq | Hne].
  - rewrite track_event_cases. unfold request_key, request_dict in *.
    destruct (body ≫= as_dict) as [d |]; [| done].
    destruct (py_hash (session_id_of d)) as [k' |]; [| done].
    injection Heq as ->. cbn [fst]. rewrite lookup_insert_eq.
    by destruct (st !! k).
  - rewrite track_event_frame by done. by rewrite app_nil_r.
Qed.

Lemma recorded_under_app k reqs1 reqs2 :
  recorded_under k (reqs1 ++ reqs2) = recorded_under k reqs1 ++ recorded_under k reqs2.
Proof. unfold recorded_under. apply omap_app. Qed.

Lemma events_of_run_tracks log reqs st k :
  events_of (run_tracks log reqs st) k = events_of st k ++ recorded_under k reqs.
Proof.
  induction reqs as [| r reqs IH] using rev_ind.
  - cbn. by rewrite app_nil_r.
  - rewrite run_tracks_snoc, events_of_track, IH, recorded_under_app.
    destruct r as [now body]. by rewrite <- app_assoc.
Qed.

(** The store is a journal: after a run of [/track] requests a session
    holds what it held before, followed by the objects of the requests that
    were recorded under its key, in the order of arrival. *)
Theorem store_is_journal (log : list pyval → result unit) (reqs : list request)
    (st : store) (k : pykey) :
  events_of (run_tracks log reqs st) k = events_of st k ++ recorded_under k reqs.
Proof. apply events_of_run_tracks. Qed.

Lemma recorded_under_key k reqs d :
  d ∈ recorded_under k reqs → py_hash (session_id_of d) = Ok k.
Proof.
  unfold recorded_under. rewrite list_elem_of_omap.
  intros ([now body] & _ & Hd). cbn [snd] in Hd.
  destruct (decide (request_key body = Some k)) as [Heq | ?]; [| done].
  unfold request_key, request_dict in *.
  destruct (body ≫= as_dict) as [d' |]; [| done]. injection Hd as ->.
  by destruct (py_hash (session_id_of d)) as [k' |]; [injection Heq as -> |].
Qed.

(** Every event a session holds after a run from the empty store carries
    the session identifier it is filed under. *)
Theorem stored_events_well_keyed (log : list pyval → result unit)
    (reqs : list request) (k : pykey) (s : session) (d : pydict) :
  run_tracks log reqs ∅ !! k = Some s →
  d ∈ events s →
  py_hash (session_id_of d) = Ok k.
Proof.
  intros Hs Hd. apply (recorded_under_key k reqs).
  pose proof (events_of_run_tracks log reqs ∅ k) as Hj. unfold events_of in Hj.
  rewrite Hs, lookup_empty in Hj. cbn in Hj. by rewrite <- Hj.
Qed.

Lemma stored_events_well_keyed_witness :
  py_hash (session_id_of (sample_event "click" 6 None)) = Ok (KStr (lit "s1")).
Proof.
  apply (stored_events_well_keyed Local.log
           [(λ _, 0%Q, Ok (PDict (sample_event "page_view" 5 None)));
            (λ _, 1%Q, Ok (PDict (sample_event "click" 6 None)))]
           (KStr (lit "s1"))
           (mk_session [sample_event "page_view" 5 None; sample_event "click" 6 None]
                       0 1)
           (sample_event "click" 6 None)).
  - reflexivity.
  - cbn [events]. right. left.
Defined.

(** A request that [modal_app.py] answers with the error object changes
    nothing in the store.  One that [local_app.py] answers with the error
    object changes nothing either, unless the error is that of the
    diagnostic line: then the body is an object whose [session_id] or
    [event_type] holds a surrogate, and it has been recorded. *)
Theorem rejected_track_keeps_store (now : nat → Q) (body : result pyval)
    (st : store) (e : exn) :
  ((track_event Modal.log now body st).2 = TrackError e →
   (track_event Modal.log now body st).1 = st) ∧
  ((track_event Local.log now body st).2 = TrackError e →
   (track_event Local.log now body st).1 = st ∨
   e = UnicodeEncodeError ∧
   ∃ d k, body = Ok (PDict d) ∧ py_hash (session_id_of d) = Ok k ∧
          (holds_surrogate (session_id_of d) ∨ holds_surrogate (event_type_of d)) ∧
          (track_event Local.log now body st).1 = <[k := recorded now d (st !! k)]> st).
Proof.
  rewrite !track_event_cases. split.
  - destruct (body ≫= as_dict) as [d |]; [| done].
    by destruct (py_hash (session_id_of d)).
  - destruct body as [[| | | | | | d] |]; cbn [mbind result_bind as_dict];
      try (by left).
    destruct (py_hash (session_id_of d)) as [k |] eqn:Hk; [| by left].
    cbn [fst snd]. rewrite local_log_cases.
    destruct (unprintable (session_id_of d) || unprintable (event_type_of d)) eqn:Hu;
      [| done].
    intros [= <-]. right. split; [done |]. exists d, k. repeat split; [done |].
    apply orb_true_iff in Hu. by rewrite <- !unprintable_iff.
Qed.

Lemma rejected_track_keeps_store_witness :
  (track_event Modal.log (λ _, 0%Q) (Ok (PList []))
     (run_tracks Modal.log [(λ _, 0%Q, Ok (PDict (sample_event "click" 6 None)))] ∅)).1
  = run_tracks Modal.log [(λ _, 0%Q, Ok (PDict (sample_event "click" 6 None)))] ∅ ∧
  ((track_event Local.log (λ _, 0%Q)
      (Ok (PDict [(k_session_id, PStr [55296%N])])) ∅).1 = ∅ ∨
   UnicodeEncodeError = UnicodeEncodeError ∧
   ∃ d k, Ok (PDict [(k_session_id, PStr [55296%N])]) = Ok (PDict d) ∧
          py_hash (session_id_of d) = Ok k ∧
          (holds_surrogate (session_id_of d) ∨ holds_surrogate (event_type_of d)) ∧
          (track_event Local.log (λ _, 0%Q)
             (Ok (PDict [(k_session_id, PStr [55296%N])])) ∅).1
          = <[k := recorded (λ _, 0%Q) d ((∅ : store) !! k)]> (∅ : store)).
Proof.
  split.
  - apply (rejected_track_keeps_store (λ _, 0%Q) (Ok (PList [])) _ AttributeError).
    reflexivity.
  - apply (rejected_track_keeps_store (λ _, 0%Q)
             (Ok (PDict [(k_session_id, PStr [55296%N])])) ∅ UnicodeEncodeError).
    reflexivity.
Defined.

(** No session that the [/track] requests build is empty, so on the stores
    the endpoints can reach the analyzer never returns the empty summary. *)
Theorem reachable_sessions_not_empty (log : list pyval → result unit)
    (reqs : list request) (k : pykey) (s : session) :
  run_tracks log reqs ∅ !! k = Some s →
  events s ≠ [] ∧ analyze_session_behavior (events s) ≠ Ok EmptyAnalysis.
Proof.
  intros Hs. pose proof (run_tracks_nonempty log reqs k s Hs) as Hne.
  split; [done |]. by rewrite analyze_empty_iff.
Qed.

Lemma reachable_sessions_not_empty_witness :
  events (mk_session [sample_event "click" 6 None] 0 0) ≠ [] ∧
  analyze_session_behavior (events (mk_session [sample_event "click" 6 None] 0 0))
    ≠ Ok EmptyAnalysis.
Proof.
  apply (reachable_sessions_not_empty Local.log
           [(λ _, 0%Q, Ok (PDict (sample_event "click" 6 None)))] (KStr (lit "s1"))).
  reflexivity.
Defined.

(** * Further properties of [/analyze] *)

(** The handler reads the store at one key only. *)
Lemma analyze_session_key log get_ai env body st k :
  request_key body = Some k →
  ∃ d, body = Ok (PDict d) ∧ py_hash (session_id_of d) = Ok k ∧
    analyze_session log get_ai env body st =
      match st !! k with
      | None => session_not_found
      | Some sess =>
          match log [session_id_of d] with
          | Raise _ => analyze_fallback
          | Ok _ =>
              match analyze_session_behavior (events sess) with
              | Raise _ => analyze_fallback
              | Ok a => AnalyzeDecision (get_ai env a)
              end
          end
      end.
Proof.
  rewrite analyze_session_cases. unfold request_key.
  destruct body as [[| | | | | | d] |]; cbn [mbind result_bind as_dict]; try done.
  destruct (py_hash (session_id_of d)) as [k' |] eqn:Hk; [| done].
  intros [= ->]. by exists d.
Qed.

Lemma analyze_session_no_key log get_ai env body st :
  request_key body = None → analyze_session log get_ai env body st = analyze_fallback.
Proof.
  rewrite analyze_session_cases. unfold request_key.
  destruct (body ≫= as_dict) as [d |]; [| done].
  by destruct (py_hash (session_id_of d)).
Qed.

(** Once an event has been tracked under a session identifier, [/analyze]
    on that identifier answers with a decision, not with the not-found
    error. *)
Theorem analyze_after_track (log : list pyval → result unit)
    (get_ai : environment → analysis → AIResponse)
    (env : environment) (now : nat → Q) (d : pydict) (k : pykey)
    (body : result pyval) (st : store) :
  py_hash (session_id_of d) = Ok k →
  request_key body = Some k →
  ∃ r, analyze_session log get_ai env body (track_event log now (Ok (PDict d)) st).1
       = AnalyzeDecision r.
Proof.
  intros Hk Hb.
  destruct (analyze_session_key log get_ai env body
              (track_event log now (Ok (PDict d)) st).1 k Hb) as (d' & _ & _ & ->).
  rewrite (track_event_recorded log now d k) by done.
  rewrite lookup_insert_eq.
  destruct (log _); [| by eexists].
  destruct (analyze_session_behavior _); by eexists.
Qed.

Lemma analyze_after_track_witness :
  ∃ r, analyze_session Local.log Local.get_ai_decision env_failing
         (Ok (PDict [(k_session_id, PStr (lit "s1"))]))
         (track_event Local.log (λ _, 0%Q) (Ok (PDict (sample_event "click" 6 None))) ∅).1
       = AnalyzeDecision r.
Proof.
  apply (analyze_after_track Local.log Local.get_ai_decision env_failing (λ _, 0%Q)
           (sample_event "click" 6 None) (KStr (lit "s1"))); reflexivity.
Defined.

(** What [/analyze] answers for one session does not depend on the events
    tracked for another. *)
Theorem analyze_ignores_other_sessions (log : list pyval → result unit)
    (get_ai : environment → analysis → AIResponse)
    (env : environment) (now : nat → Q) (tracked body : result pyval) (st : store) :
  request_key tracked ≠ request_key body →
  analyze_session log get_ai env body (track_event log now tracked st).1
  = analyze_session log get_ai env body st.
Proof.
  intros Hne. destruct (request_key body) as [k |] eqn:Hb.
  - destruct (analyze_session_key log get_ai env body st k Hb) as (d & Hd & _ & ->).
    destruct (analyze_session_key log get_ai env body
                (track_event log now tracked st).1 k Hb) as (d' & Hd' & _ & ->).
    rewrite Hd in Hd'. injection Hd' as <-.
    by rewrite track_event_frame.
  - by rewrite !analyze_session_no_key.
Qed.

Lemma analyze_ignores_other_sessions_witness :
  analyze_session Local.log Local.get_ai_decision env_failing
    (Ok (PDict [(k_session_id, PStr (lit "s1"))]))
    (track_event Local.log (λ _, 1%Q) (Ok (PDict [(k_session_id, PStr (lit "s2"))]))
       (run_tracks Local.log
          [(λ _, 0%Q, Ok (PDict (sample_event "click" 6 None)))] ∅)).1
  = analyze_session Local.log Local.get_ai_decision env_failing
      (Ok (PDict [(k_session_id, PStr (lit "s1"))]))
      (run_tracks Local.log [(λ _, 0%Q, Ok (PDict (sample_event "click" 6 None)))] ∅).
Proof.
  apply (analyze_ignores_other_sessions Local.log Local.get_ai_decision env_failing
           (λ _, 1%Q)).
  vm_compute. discriminate.
Defined.




(** A session identifier that holds the surrogate U+D800: [modal_app.py]
    answers with the decision of the heuristic, [local_app.py] fails to
    write its line and answers with the fixed decision. *)
Example analyze_surrogate_session_id :
  analyze_session Modal.log Modal.get_ai_decision (mk_env None (λ _, Raise ServiceError))
    (Ok (PDict [(k_session_id, PStr [55296%N])]))
    {[ KStr [55296%N] := mk_session [sample_event "click" 6 None] 0 1 ]}
  = AnalyzeDecision no_message ∧
  analyze_session Local.log Local.get_ai_decision (mk_env None (λ _, Raise ServiceError))
    (Ok (PDict [(k_session_id, PStr [55296%N])]))
    {[ KStr [55296%N] := mk_session [sample_event "click" 6 None] 0 1 ]}
  = analyze_fallback.
Proof. split; reflexivity. Qed.

(** * The bookkeeping times of a session *)

Lemma monotone_clock_weaken t t' reqs :
  (t' <= t)%Q → monotone_clock t reqs → monotone_clock t' reqs.
Proof.
  destruct reqs as [| r reqs]; [done |]. cbn [monotone_clock].
  intros Ht (H0 & H1 & H2 & Hrest). repeat split; try done. lra.
Qed.

(** One request under a clock that does not go back keeps every session's
    creation time no later than its last activity, and no later than the
    end of the request. *)
Lemma track_event_times log now body st t :
  (t <= now 0%nat)%Q → (now 0%nat <= now 1%nat)%Q → (now 1%nat <= now 2%nat)%Q →
  (∀ k s, st !! k = Some s →
          (created_at s <= last_activity s)%Q ∧ (created_at s <= t)%Q) →
  ∀ k s, (track_event log now body st).1 !! k = Some s →
         (created_at s <= last_activity s)%Q ∧ (created_at s <= now 2%nat)%Q.
Proof.
  intros H0 H1 H2 Hinv k s. rewrite track_event_cases.
  destruct (body ≫= as_dict) as [d |]; cycle 1.
  { cbn [fst]. intros Hs. destruct (Hinv k s Hs). split; [done | lra]. }
  destruct (py_hash (session_id_of d)) as [k' |]; cycle 1.
  { cbn [fst]. intros Hs. destruct (Hinv k s Hs). split; [done | lra]. }
  cbn [fst]. destruct (decide (k' = k)) as [-> | Hne].
  - rewrite lookup_insert_eq. intros [= <-].
    destruct (st !! k) as [s0 |] eqn:Hs0; cbn [recorded created_at last_activity].
    + destruct (Hinv k s0 Hs0). split; lra.
    + split; lra.
  - rewrite lookup_insert_ne by done. intros Hs.
    destruct (Hinv k s Hs). split; [done | lra].
Qed.

Lemma run_tracks_times log reqs st t :
  monotone_clock t reqs →
  (∀ k s, st !! k = Some s →
          (created_at s <= last_activity s)%Q ∧ (created_at s <= t)%Q) →
  ∀ k s, run_tracks log reqs st !! k = Some s → (created_at s <= last_activity s)%Q.
Proof.
  revert st t. induction reqs as [| [now body] reqs IH]; intros st t Hclock Hinv k s.
  - cbn. intros Hs. by destruct (Hinv k s Hs).
  - cbn [monotone_clock fst] in Hclock. destruct Hclock as (H0 & H1 & H2 & Hrest).
    change (run_tracks log ((now, body) :: reqs) st)
      with (run_tracks log reqs (track_event log now body st).1).
    apply (IH _ (now 2%nat)); [done |].
    by apply (track_event_times log now body st t).
Qed.

(** When the clock never goes back, every session that a run of [/track]
    requests builds has a creation time no later than its last activity. *)
Theorem created_before_last_activity (log : list pyval → result unit)
    (reqs : list request) (t : Q) (k : pykey) (s : session) :
  monotone_clock t reqs →
  run_tracks log reqs ∅ !! k = Some s →
  (created_at s <= last_activity s)%Q.
Proof.
  intros Hclock. apply (run_tracks_times log reqs ∅ t Hclock).
  intros k' s'. by rewrite lookup_empty.
Qed.

Lemma created_before_last_activity_witness :
  (created_at (mk_session [sample_event "page_view" 5 None; sample_event "click" 6 None]
                 1 4)
   <= last_activity
        (mk_session [sample_event "page_view" 5 None; sample_event "click" 6 None] 1 4))%Q.
Proof.
  apply (created_before_last_activity Local.log
           [(λ n, inject_Z (1 + Z.of_nat n), Ok (PDict (sample_event "page_view" 5 None)));
            (λ n, inject_Z (4 + Z.of_nat n), Ok (PDict (sample_event "click" 6 None)))]
           0 (KStr (lit "s1"))).
  - vm_compute. repeat split; discriminate.
  - reflexivity.
Defined.

(** A session that is in the store before a run is the beginning of what
    the run leaves under its key. *)
Lemma run_tracks_prefix_witness :
  ∃ s', run_tracks Local.log
          [(λ _, 1%Q, Ok (PDict (sample_event "click" 6 None)));
           (λ _, 2%Q, Ok (PDict [(k_session_id, PStr (lit "s2"))]))]
          {[ KStr (lit "s1") := mk_session [sample_event "page_view" 5 None] 0 0 ]}
        !! KStr (lit "s1") = Some s' ∧
        events (mk_session [sample_event "page_view" 5 None] 0 0) `prefix_of` events s' ∧
        created_at s' = created_at (mk_session [sample_event "page_view" 5 None] 0 0).
Proof.
  apply (run_tracks_prefix Local.log
           [(λ _, 1%Q, Ok (PDict (sample_event "click" 6 None)));
            (λ _, 2%Q, Ok (PDict [(k_session_id, PStr (lit "s2"))]))]
           {[ KStr (lit "s1") := mk_session [sample_event "page_view" 5 None] 0 0 ]}
           (KStr (lit "s1"))).
  reflexivity.
Defined.

(** * Further properties of the decision engine *)

Lemma clean_constant (s : pystr) :
  bool_decide (s ≠ []) && forallb (λ c, negb (c =? dquote)%N) s = true →
  clean_text s.
Proof.
  rewrite andb_true_iff, bool_decide_eq_true, forallb_forall. intros [Hne Hall].
  split; [done |]. apply Forall_forall. intros c Hc Heq. subst c.
  apply list_elem_of_In in Hc. by apply Hall in Hc.
Qed.

Lemma fallback_well_formed a : well_formed (get_fallback_decision a).
Proof.
  unfold get_fallback_decision, well_formed.
  destruct (get_has_cart_items a); cbn [should_show_message message trigger_type].
  - eexists _, _. split; [done |]. split; [done |].
    split; by apply clean_constant.
  - destruct (3 <=? get_total_events a)%nat; cbn [should_show_message message trigger_type].
    + eexists _, _. split; [done |]. split; [done |].
      split; by apply clean_constant.
    + done.
Qed.

Lemma field_value_clean name default text v :
  clean_text default → field_value name default text v → clean_text v.
Proof.
  intros Hd [(pre & s & _ & (ws & rest & _ & _ & Hne & Hcap) & _) | [_ ->]]; [| done].
  by split.
Qed.

Lemma text_decision_well_formed t a :
  well_formed (try_except (decision_of_text (Some t)) (λ _, get_fallback_decision a)).
Proof.
  rewrite decision_of_text_some. cbn [try_except].
  destruct (str_contains show_marker t); [| done].
  unfold well_formed. cbn [should_show_message message trigger_type].
  eexists _, _. split; [done |]. split; [done |]. split.
  - eapply field_value_clean; [| apply extracted_field_value]. by apply clean_constant.
  - eapply field_value_clean; [| apply extracted_field_value]. by apply clean_constant.
Qed.

(** Whatever the environment and the reply, both variants of the engine
    return a well-formed decision: a shown decision has a message and a
    trigger, neither empty nor holding a double quote, and a decision that is
    not shown has neither. *)
Theorem decisions_well_formed (env : environment) (a : analysis) :
  well_formed (Local.get_ai_decision env a) ∧
  well_formed (Modal.get_ai_decision env a).
Proof.
  rewrite modal_as_local, local_decision_cases.
  split; (destruct (key_missing (openai_api_key env)); [apply fallback_well_formed |]);
    destruct (reply_text env a);
    (apply text_decision_well_formed || apply fallback_well_formed).
Qed.

(** ** Reading back a reply in the prompt's format *)













